(** * vtdb.vtgate_cursor: VTGateCursor and StreamVTGateCursor

    A shallow embedding of [py/vtdb/vtgate_cursor.py] and the properties of
    its cursors and of its row-sorting helper.

    Conventions of the embedding.
    - Python strings are given by their UTF-8 bytes ([string] is a list of
      8-bit characters), so ASCII-only case folding is bytewise. The
      compiled pattern is a pattern on [str]: it matches characters, and
      each character is recognised by its UTF-8 encoding.
    - A Python call either returns a value or raises: [outcome A]. This
      includes [<] on the values of a row, which raises [TypeError] when
      the two values cannot be ordered.
    - Methods that mutate [self] or talk to the connection are functions in
      the state-and-exception monad [M S A := S -> outcome A * S]; what was
      assigned before a [raise] stays assigned.
    - The connection is an external collaborator: its primitives are
      oracles that answer from the history of calls, and every call is
      appended to that history. *)

From Stdlib Require Import ZArith Ascii String.
From stdpp Require Import base option list strings gmap sorting.

Local Open Scope string_scope.
Local Open Scope Z_scope.

(** ** Exceptions and outcomes *)

(** The exceptions that occur in the module: the two [dbexceptions] classes
    it raises (with their constructor arguments), the built-in ones raised
    by indexing (out of range, or with [None]), dictionary lookup and
    [itertools.islice], and whatever a connection primitive raises. *)
Inductive exn : Type :=
  | DatabaseError (args : list string)
  | ProgrammingError (args : list string)
  | IndexError
  | KeyError (key : string)
  | ValueError
  | TypeError
  | UpstreamError (what : string).

Inductive outcome (A : Type) : Type :=
  | Return (a : A)
  | Raise (e : exn).
Arguments Return {A} a.
Arguments Raise {A} e.

#[global] Instance outcome_ret : MRet outcome := @Return.
#[global] Instance outcome_bind : MBind outcome := λ A B f m,
  match m with
  | Return a => f a
  | Raise e => Raise e
  end.

Definition returns {A} (m : outcome A) : Prop := ∃ a, m = Return a.

(** ** Byte strings *)

Definition byte_of (c : ascii) : Z := Z.of_N (N_of_ascii c).

(** [bytes.lower()]: only ['A'..'Z'] change. *)
Definition lower_byte (c : ascii) : ascii :=
  let n := byte_of c in
  if (65 <=? n) && (n <=? 90) then ascii_of_N (Z.to_N (n + 32)) else c.

Fixpoint lower_bytes (s : string) : string :=
  match s with
  | EmptyString => EmptyString
  | String c s' => String (lower_byte c) (lower_bytes s')
  end.

(** [ascii_lower(string)]: [string.encode('utf8').lower().decode('utf8')]. *)
Definition ascii_lower (s : string) : string := lower_bytes s.

(** ** The pattern [write_sql_pattern] *)

Definition byte (n : Z) : ascii := ascii_of_N (Z.to_N n).

(** The UTF-8 encoding of a code point. *)
Definition utf8_encode (cp : Z) : string :=
  if cp <? 0x80 then String (byte cp) EmptyString
  else if cp <? 0x800 then
    String (byte (0xc0 + cp / 64))
      (String (byte (0x80 + cp mod 64)) EmptyString)
  else if cp <? 0x10000 then
    String (byte (0xe0 + cp / 4096))
      (String (byte (0x80 + cp / 64 mod 64))
         (String (byte (0x80 + cp mod 64)) EmptyString))
  else
    String (byte (0xf0 + cp / 262144))
      (String (byte (0x80 + cp / 4096 mod 64))
         (String (byte (0x80 + cp / 64 mod 64))
            (String (byte (0x80 + cp mod 64)) EmptyString))).

(** The characters that [\s] matches in a pattern on [str]: those for which
    [str.isspace] holds. Besides the six ASCII blanks these are the
    separators [\x1c]..[\x1f], next line, no-break space, and the spaces
    and line and paragraph separators beyond Latin-1. *)
Definition whitespace_code_points : list Z :=
  [0x9; 0xa; 0xb; 0xc; 0xd; 0x1c; 0x1d; 0x1e; 0x1f; 0x20; 0x85; 0xa0;
   0x1680; 0x2000; 0x2001; 0x2002; 0x2003; 0x2004; 0x2005; 0x2006; 0x2007;
   0x2008; 0x2009; 0x200a; 0x2028; 0x2029; 0x202f; 0x205f; 0x3000].

Definition whitespace : list string := utf8_encode <$> whitespace_code_points.

(** The characters that a character of a pattern compiled with
    [re.IGNORECASE] matches in a [str]. For an ASCII letter: the letter in
    lower case, its capital, and the characters beyond ASCII that have one
    of the two as their lower or upper case: dotted capital I and dotless
    i for [i], long s for [s], the Kelvin sign for [k]. Any other ASCII
    character matches itself only. *)
Definition ignorecase_code_points (a : ascii) : list Z :=
  let n := byte_of (lower_byte a) in
  if (0x61 <=? n) && (n <=? 0x7a) then
    [n - 32; n] ++
    (if n =? 0x69 then [0x130; 0x131]
     else if n =? 0x73 then [0x17f]
     else if n =? 0x6b then [0x212a]
     else [])
  else [n].

Definition ignorecase_chars (a : ascii) : list string :=
  utf8_encode <$> ignorecase_code_points a.

(** What follows the prefix [p] in [s], if [s] starts with [p]. *)
Fixpoint strip_prefix (p s : string) : option string :=
  match p, s with
  | EmptyString, _ => Some s
  | String a p', String c s' =>
      if bool_decide (a = c) then strip_prefix p' s' else None
  | String _ _, EmptyString => None
  end.

(** The first character of [s], if it is one of [chars], and what follows
    it. *)
Fixpoint match_char (chars : list string) (s : string)
    : option (string * string) :=
  match chars with
  | [] => None
  | w :: chars' =>
      match strip_prefix w s with
      | Some rest => Some (w, rest)
      | None => match_char chars' s
      end
  end.

(** A literal of a pattern compiled with [re.IGNORECASE], matched at the
    start of the text. *)
Fixpoint match_literal_ic (lit s : string) : bool :=
  match lit with
  | EmptyString => true
  | String a lit' =>
      match match_char (ignorecase_chars a) s with
      | Some (_, s') => match_literal_ic lit' s'
      | None => false
      end
  end.

(** The alternation [(insert|update|delete)]. *)
Definition match_write_keyword (s : string) : bool :=
  match_literal_ic "insert" s || match_literal_ic "update" s
  || match_literal_ic "delete" s.

(** The number of bytes of the [\s] character that [s] starts with; [0]
    if it starts with none. *)
Definition space_width (s : string) : nat :=
  match match_char whitespace s with
  | Some (w, _) => String.length w
  | None => 0%nat
  end.

(** [\s*(insert|update|delete)] matched at the start of the text, followed
    byte by byte: where a character starts, either the alternation matches
    there, or the character is a [\s] character and the match goes on
    behind it; [skip] counts the bytes of that character still to pass. *)
Fixpoint match_from (skip : nat) (sql : string) : bool :=
  match skip, sql with
  | O, _ =>
      match_write_keyword sql
      || match sql with
         | String _ sql' =>
             match space_width sql with
             | S k => match_from k sql'
             | O => false
             end
         | EmptyString => false
         end
  | S k, String _ sql' => match_from k sql'
  | S _, EmptyString => false
  end.

(** [bool(write_sql_pattern.match(sql))] for
    [write_sql_pattern = re.compile(r'\s*(insert|update|delete)', re.IGNORECASE)]. *)
Definition write_sql_pattern_match (sql : string) : bool := match_from 0 sql.

(** ** Rows and Python's [<] on their values *)

(** Python's [<] on the scalar values found in rows: the comparison
    returns a bool, or raises when the two values cannot be ordered. *)
Class PyLt (V : Type) := py_lt : V → V → outcome bool.

(** [x < y] returned [True]. *)
Definition py_below {V : Type} `{PyLt V} (x y : V) : bool :=
  match py_lt x y with
  | Return b => b
  | Raise _ => false
  end.

(** The values are ordered by [<] up to ties: every comparison returns,
    [<] is asymmetric and two values that both fail to be below a third
    are not below each other (a strict weak order, as on numbers alone or
    on strings alone). *)
Class PyLtLaws (V : Type) `{PyLt V} : Prop := {
  py_lt_returns (x y : V) : returns (py_lt x y);
  py_lt_asym (x y : V) : py_below x y = true → py_below y x = false;
  py_lt_negtrans (x y z : V) :
    py_below x z = true → py_below x y = true ∨ py_below y z = true
}.

#[global] Instance Z_py_lt : PyLt Z := λ x y, Return (x <? y).

(** A scalar of a result row: [None] or an integer. *)
Inductive scalar : Type :=
  | SNone
  | SInt (z : Z).

(** Integers are compared by value; [None] is ordered with nothing, not
    even with itself. *)
#[global] Instance scalar_py_lt : PyLt scalar := λ x y,
  match x, y with
  | SInt a, SInt b => Return (a <? b)
  | _, _ => Raise TypeError
  end.

(** ** The built-in stable sort *)

Section builtin_sort.
Context {A : Type} (lt : A → A → outcome bool).

(** Put [x] in front of the first element that is not below it. *)
Fixpoint insert_sorted (x : A) (l : list A) : outcome (list A) :=
  match l with
  | [] => mret [x]
  | y :: l' =>
      below ← lt y x;
      if below : bool then l'' ← insert_sorted x l'; mret (y :: l'')
      else mret (x :: y :: l')
  end.

(** A stable sort that only asks [<], standing for the algorithm behind
    [list.sort] and [sorted]; a comparison that raises ends it. The
    built-in asks its comparisons in an order of its own: the outcome is
    the same whenever every comparison returns and [<] orders the items,
    and whenever items of two kinds that cannot be compared are present,
    where any sort has to compare across the kinds. *)
Fixpoint stable_sort (l : list A) : outcome (list A) :=
  match l with
  | [] => mret []
  | x :: l' => s ← stable_sort l'; insert_sorted x s
  end.
End builtin_sort.

Section stable_order.
Context {A : Type} (lt : A → A → bool).

(** The list a stable sort yields when every comparison returns. *)
Fixpoint insert_ordered (x : A) (l : list A) : list A :=
  match l with
  | [] => [x]
  | y :: l' => if lt y x then y :: insert_ordered x l' else x :: y :: l'
  end.

Fixpoint stable_order (l : list A) : list A :=
  match l with
  | [] => []
  | x :: l' => insert_ordered x (stable_order l')
  end.
End stable_order.

(** Two items tie under [lt]: neither is below the other. *)
Definition ties {A : Type} (lt : A → A → bool) (x y : A) : bool :=
  negb (lt x y) && negb (lt y x).

(** [l.sort(key=key, reverse=rev)] and [sorted(l, key=key, reverse=rev)] on
    the items of [l]: the keys are computed first, one call per item in
    order (an exception of [key] ends the sort); the items are then ordered
    by comparing their keys, and a reversed sort reverses the list, sorts
    it, and reverses the result, which keeps ties in their original
    order. *)
Definition list_sort {A K : Type} `{PyLt K}
    (key : A → outcome K) (rev : bool) (l : list A) : outcome (list A) :=
  keys ← mapM key l;
  let decorated := zip keys l in
  let by_key (p q : K * A) := py_lt p.1 q.1 in
  ordered ←
    (if rev then
       s ← stable_sort by_key (reverse decorated); mret (reverse s)
     else stable_sort by_key decorated);
  mret (ordered.*2).

Section rows.
Context {value : Type} `{PyLt value}.

(** A row: a tuple of scalar values. *)
Definition row : Type := list value.

(** [operator.itemgetter(i)] applied to a row, for [i >= 0]. *)
Definition itemgetter (i : nat) (r : row) : outcome value :=
  match r !! i with
  | Some v => Return v
  | None => Raise IndexError
  end.

(** The argument [row_list]: a [list] object, or some other iterable
    (a tuple, a generator), each given by the rows it holds. *)
Inductive row_seq : Type :=
  | AsList (rows : list row)
  | AsIterable (rows : list row).

Definition items (s : row_seq) : list row :=
  match s with AsList l | AsIterable l => l end.

(** [enumerate(l)] from a start index. *)
Fixpoint enumerate_from {B} (i : nat) (l : list B) : list (nat * B) :=
  match l with
  | [] => []
  | x :: l' => (i, x) :: enumerate_from (S i) l'
  end.
Definition enumerate {B} (l : list B) : list (nat * B) := enumerate_from 0 l.

(** The entries of [sort_columns] and [desc_columns]: column names or
    positions, anything that [in] can compare. *)
Context {column : Type} `{EqDecision column}.

(** One turn of the loop of [sort_row_list_by_columns]: [sorted] makes a
    new list of an iterable that is no list, [list.sort] orders a list in
    place; either way [row_list] is a list afterwards. *)
Definition sort_pass (desc_columns : list column)
    (acc : outcome row_seq) (entry : nat * column) : outcome row_seq :=
  row_list ← acc;
  let '(column_index, column_name) := entry in
  let og := itemgetter column_index in
  let rev := bool_decide (column_name ∈ desc_columns) in
  match row_list with
  | AsIterable l => l' ← list_sort og rev l; mret (AsList l')
  | AsList l => l' ← list_sort og rev l; mret (AsList l')
  end.

(** [sort_row_list_by_columns(row_list, sort_columns, desc_columns)]. *)
Definition sort_row_list_by_columns (row_list : row_seq)
    (sort_columns desc_columns : list column) : outcome row_seq :=
  foldl (sort_pass desc_columns) (Return row_list)
    (reverse (enumerate sort_columns)).
End rows.
Arguments row : clear implicits.
Arguments row_seq : clear implicits.

(** ** The order that [sort_row_list_by_columns] is meant to establish *)

Section row_order.
Context {value : Type} `{PyLt value}.

(** The value of [x] at position [i] is below that of [y]. *)
Definition key_lt (i : nat) (x y : row value) : bool :=
  match x !! i, y !! i with
  | Some a, Some b => py_below a b
  | _, _ => false
  end.

(** [x] comes strictly before [y] on column [i], in the direction of the
    column ([desc = true]: larger values first). *)
Definition col_before (i : nat) (desc : bool) (x y : row value) : bool :=
  if desc then key_lt i y x else key_lt i x y.

(** [x] and [y] tie on column [i]: neither value is below the other. *)
Definition col_tied (i : nat) (x y : row value) : bool :=
  ties (key_lt i) x y.

(** Lexicographic comparison on the columns [i, i+1, ...], one direction
    per column: the first column that does not tie decides. *)
Fixpoint lex_before_from (i : nat) (dirs : list bool) (x y : row value) : bool :=
  match dirs with
  | [] => false
  | d :: ds =>
      col_before i d x y || (col_tied i x y && lex_before_from (S i) ds x y)
  end.
Definition lex_before := lex_before_from 0.

(** [x] and [y] tie on every one of the columns. *)
Fixpoint tied_from (i : nat) (dirs : list bool) (x y : row value) : bool :=
  match dirs with
  | [] => true
  | _ :: ds => col_tied i x y && tied_from (S i) ds x y
  end.
Definition tied := tied_from 0.

(** Non-decreasing: no row comes strictly before an earlier one. *)
Definition non_decreasing (dirs : list bool) (l : list (row value)) : Prop :=
  StronglySorted (λ x y, lex_before dirs y x = false) l.
End row_order.

(** The declared direction of each sort column: descending iff the entry
    is in [desc_columns]. *)
Definition declared_desc {column : Type} `{EqDecision column}
    (sort_columns desc_columns : list column) : list bool :=
  (λ c, bool_decide (c ∈ desc_columns)) <$> sort_columns.

(** The passes of [sort_row_list_by_columns] written over positions and
    directions alone: the pass for position [i] sorts on the row element at
    position [i], reversed iff the [i]-th direction says so. *)
Definition sort_by_positions {value : Type} `{PyLt value}
    (row_list : row_seq value) (dirs : list bool) : outcome (row_seq value) :=
  foldl (λ acc entry,
           row_list ← acc;
           l' ← list_sort (itemgetter entry.1) entry.2 (items row_list);
           mret (AsList l'))
    (Return row_list) (reverse (enumerate dirs)).

(** ** [VTGateCursor.fetch_aggregate] *)

(** An entry of [order_by_columns]: a tuple or list of strings (column,
    direction), or anything else, taken as a bare column. *)
Inductive order_clause : Type :=
  | Bare (column : string)
  | Seq (entries : list string).

(** [t[i]] on a tuple or list, for [i >= 0]. *)
Definition getitem {A} (t : list A) (i : nat) : outcome A :=
  match t !! i with
  | Some x => Return x
  | None => Raise IndexError
  end.

(** One turn of the first loop of [fetch_aggregate], on the pair
    [(sort_columns, desc_columns)]. *)
Definition order_step (acc : outcome (list string * list string))
    (order_clause : order_clause) : outcome (list string * list string) :=
  '(sort_columns, desc_columns) ← acc;
  match order_clause with
  | Seq t =>
      column ← getitem t 0;
      let sort_columns := (sort_columns ++ [column])%list in
      direction ← getitem t 1;
      if bool_decide (ascii_lower direction = "desc")
      then mret (sort_columns, (desc_columns ++ [column])%list)
      else mret (sort_columns, desc_columns)
  | Bare column => mret ((sort_columns ++ [column])%list, desc_columns)
  end.

(** [l[:stop]]: a negative [stop] counts from the end. *)
Definition slice_to {A} (l : list A) (stop : Z) : list A :=
  if 0 <=? stop then take (Z.to_nat stop) l
  else take (length l - Z.to_nat (- stop)) l.

(** [sys.maxsize] (64-bit build). *)
Definition sys_maxsize : Z := 2 ^ 63 - 1.

(** [itertools.islice(l, stop)] for an integer [stop], drained: the
    constructor refuses a [stop] outside [0 .. sys.maxsize]. *)
Definition islice {A} (l : list A) (stop : Z) : outcome (list A) :=
  if (0 <=? stop) && (stop <=? sys_maxsize) then Return (take (Z.to_nat stop) l)
  else Raise ValueError.

Section fetch_aggregate.
Context {value : Type} `{PyLt value}.

(** [fetch_aggregate(self, order_by_columns, limit)], as a function of
    [fetched], the list that [self.fetchall()] (a method of the base
    cursor) returns. *)
Definition fetch_aggregate (fetched : list (row value))
    (order_by_columns : list order_clause) (limit : Z)
    : outcome (list (row value)) :=
  '(sort_columns, desc_columns) ←
    foldl order_step (Return ([], [])) order_by_columns;
  sorted_rows ←
    (if bool_decide (sort_columns ≠ []) then
       s ← sort_row_list_by_columns (AsList fetched) sort_columns desc_columns;
       mret (slice_to (items s) limit)
     else islice fetched limit);
  mret ((λ row, drop (length order_by_columns) row) <$> sorted_rows).
End fetch_aggregate.

(** ** The connection and the calls made to it *)

(** Python objects that the cursors only pass along: bind variables,
    keyspaces, keyspace ids, key ranges, caller ids, descriptions. *)
Inductive pyobj : Type :=
  | PyNone
  | PyInt (z : Z)
  | PyStr (s : string)
  | PyObject (repr : string).

(** A call of a connection primitive, with its arguments. *)
Inductive call : Type :=
  | Call_execute (sql : string)
      (bind_variables keyspace tablet_type keyspace_ids keyranges : pyobj)
      (not_in_transaction : bool) (effective_caller_id : pyobj)
  | Call_execute_entity_ids (sql : string)
      (bind_variables keyspace tablet_type : pyobj)
      (entity_keyspace_id_map entity_column_name : pyobj)
      (not_in_transaction : bool) (effective_caller_id : pyobj)
  | Call_execute_batch
      (sql_list bind_variables_list keyspace_list keyspace_ids_list : list pyobj)
      (tablet_type : pyobj) (as_transaction : bool)
      (effective_caller_id : pyobj)
  | Call_stream_execute (sql : string)
      (bind_variables keyspace tablet_type keyspace_ids keyranges : pyobj)
      (not_in_transaction : bool) (effective_caller_id : pyobj).

(** A result set: the tuple [(results, rowcount, lastrowid, description)]. *)
Definition result_set (value : Type) : Type :=
  option (list (row value)) * option Z * option Z * pyobj.

(** The connection: each primitive answers, or raises, from the calls made
    so far and the call at hand. A stream answers with the rows its
    generator will yield and a description. *)
Record connection (value : Type) : Type := {
  _execute : list call → call → outcome (result_set value);
  _execute_entity_ids : list call → call → outcome (result_set value);
  _execute_batch : list call → call → outcome (list (result_set value));
  _stream_execute : list call → call → outcome (list (row value) * pyobj)
}.
Arguments _execute {value} _ _ _.
Arguments _execute_entity_ids {value} _ _ _.
Arguments _execute_batch {value} _ _ _.
Arguments _stream_execute {value} _ _ _.

(** ** Methods as state transformers *)

(** What a method can see and change: the cursor [self], the calls that
    reached the connection, and the statements handed to the transaction
    handler. *)
Record world (C : Type) : Type := World {
  self : C;
  calls : list call;
  handled : list string
}.
Arguments World {C} _ _ _.
Arguments self {C} _.
Arguments calls {C} _.
Arguments handled {C} _.

Definition M (C A : Type) : Type := world C → outcome A * world C.

#[global] Instance M_ret {C} : MRet (M C) := λ A a w, (Return a, w).
#[global] Instance M_bind {C} : MBind (M C) := λ A B f m w,
  match m w with
  | (Return a, w') => f a w'
  | (Raise e, w') => (Raise e, w')
  end.

Definition raise {C A} (e : exn) : M C A := λ w, (Raise e, w).
Definition lift {C A} (o : outcome A) : M C A := λ w, (o, w).
Definition get_self {C} : M C C := λ w, (Return (self w), w).
Definition assign {C} (f : C → C) : M C unit :=
  λ w, (Return (), World (f (self w)) (calls w) (handled w)).

(** Calling a primitive of the connection records the call. *)
Definition invoke {C R} (primitive : list call → call → outcome R)
    (c : call) : M C R :=
  λ w, (primitive (calls w) c, World (self w) (calls w ++ [c]) (handled w)).

(** ** Transaction directives *)

(** The blanks that separate the tokens of a statement: space, [\t],
    [\n], [\v], [\f], [\r]. *)
Definition is_space (c : ascii) : bool :=
  let n := byte_of c in
  (n =? 32) || ((9 <=? n) && (n <=? 13)).

Fixpoint lstrip (s : string) : string :=
  match s with
  | String c s' => if is_space c then lstrip s' else s
  | EmptyString => EmptyString
  end.

Fixpoint first_word (s : string) : string :=
  match s with
  | String c s' => if is_space c then EmptyString else String c (first_word s')
  | EmptyString => EmptyString
  end.

(** The leading token of a statement: its first run of non-blank bytes. *)
Definition leading_token (sql : string) : string := first_word (lstrip sql).

(** Modelled from the spec: which statement texts the base cursor's
    [_handle_transaction_sql] (not part of this module) takes for a
    transaction-control directive: those whose leading token is [begin],
    [commit] or [rollback], case-insensitively. *)
Definition is_transaction_directive (sql : string) : bool :=
  let token := ascii_lower (leading_token sql) in
  bool_decide (token = "begin") || bool_decide (token = "commit")
  || bool_decide (token = "rollback").

(** Modelled from the spec: [_handle_transaction_sql(sql)] of the base
    cursor. A directive is handed to the transaction handler, which
    consumes it, and the result is [True]; any other text is left alone and
    the result is [False]. *)
Definition _handle_transaction_sql {C} (sql : string) : M C bool :=
  if is_transaction_directive sql
  then λ w, (Return true, World (self w) (calls w) (handled w ++ [sql]))
  else mret false.

(** [d[k]] on a dictionary with string keys. *)
Definition dict_getitem (d : gmap string pyobj) (k : string) : outcome pyobj :=
  match d !! k with
  | Some v => Return v
  | None => Raise (KeyError k)
  end.

(** ** [VTGateCursor] *)

Module VTGateCursor.
Section with_value.
Context {value : Type}.

Record t : Type := {
  _writable : bool;
  description : pyobj;
  index : option nat;
  keyranges : pyobj;
  keyspace : pyobj;
  keyspace_ids : pyobj;
  lastrowid : option Z;
  results : option (list (row value));
  routing : pyobj;
  rowcount : option Z;
  tablet_type : pyobj;
  as_transaction : bool;
  effective_caller_id : pyobj;
  result_sets : list (result_set value);
  result_set_index : option nat
}.

(** Attribute assignment [self.f = v], one function per assigned attribute. *)
Definition set_description (v : pyobj) (c : t) : t :=
  {| _writable := _writable c; description := v; index := index c;
     keyranges := keyranges c; keyspace := keyspace c;
     keyspace_ids := keyspace_ids c; lastrowid := lastrowid c;
     results := results c; routing := routing c;
     rowcount := rowcount c; tablet_type := tablet_type c;
     as_transaction := as_transaction c;
     effective_caller_id := effective_caller_id c;
     result_sets := result_sets c;
     result_set_index := result_set_index c |}.
Definition set_index (v : option nat) (c : t) : t :=
  {| _writable := _writable c; description := description c;
     index := v; keyranges := keyranges c; keyspace := keyspace c;
     keyspace_ids := keyspace_ids c; lastrowid := lastrowid c;
     results := results c; routing := routing c;
     rowcount := rowcount c; tablet_type := tablet_type c;
     as_transaction := as_transaction c;
     effective_caller_id := effective_caller_id c;
     result_sets := result_sets c;
     result_set_index := result_set_index c |}.
Definition set_lastrowid (v : option Z) (c : t) : t :=
  {| _writable := _writable c; description := description c;
     index := index c; keyranges := keyranges c;
     keyspace := keyspace c; keyspace_ids := keyspace_ids c;
     lastrowid := v; results := results c; routing := routing c;
     rowcount := rowcount c; tablet_type := tablet_type c;
     as_transaction := as_transaction c;
     effective_caller_id := effective_caller_id c;
     result_sets := result_sets c;
     result_set_index := result_set_index c |}.
Definition set_results (v : option (list (row value))) (c : t) : t :=
  {| _writable := _writable c; description := description c;
     index := index c; keyranges := keyranges c;
     keyspace := keyspace c; keyspace_ids := keyspace_ids c;
     lastrowid := lastrowid c; results := v; routing := routing c;
     rowcount := rowcount c; tablet_type := tablet_type c;
     as_transaction := as_transaction c;
     effective_caller_id := effective_caller_id c;
     result_sets := result_sets c;
     result_set_index := result_set_index c |}.
Definition set_rowcount (v : option Z) (c : t) : t :=
  {| _writable := _writable c; description := description c;
     index := index c; keyranges := keyranges c;
     keyspace := keyspace c; keyspace_ids := keyspace_ids c;
     lastrowid := lastrowid c; results := results c;
     routing := routing c; rowcount := v;
     tablet_type := tablet_type c; as_transaction := as_transaction c;
     effective_caller_id := effective_caller_id c;
     result_sets := result_sets c;
     result_set_index := result_set_index c |}.
Definition set_result_sets (v : list (result_set value)) (c : t) : t :=
  {| _writable := _writable c; description := description c;
     index := index c; keyranges := keyranges c;
     keyspace := keyspace c; keyspace_ids := keyspace_ids c;
     lastrowid := lastrowid c; results := results c;
     routing := routing c; rowcount := rowcount c;
     tablet_type := tablet_type c; as_transaction := as_transaction c;
     effective_caller_id := effective_caller_id c; result_sets := v;
     result_set_index := result_set_index c |}.
Definition set_result_set_index (v : option nat) (c : t) : t :=
  {| _writable := _writable c; description := description c;
     index := index c; keyranges := keyranges c;
     keyspace := keyspace c; keyspace_ids := keyspace_ids c;
     lastrowid := lastrowid c; results := results c;
     routing := routing c; rowcount := rowcount c;
     tablet_type := tablet_type c; as_transaction := as_transaction c;
     effective_caller_id := effective_caller_id c;
     result_sets := result_sets c; result_set_index := v |}.

Abbreviation method := (M t).

(** [VTGateCursorMixin.is_writable]. *)
Definition is_writable : method bool :=
  c ← get_self; mret (_writable c).

(** [_clear_batch_state]. *)
Definition _clear_batch_state : method unit :=
  assign (set_result_sets []);;
  assign (set_result_set_index None).

(** Modelled from the spec: [_clear_list_state] of the base list cursor,
    the shared routine that clears the current fetch state ([results],
    [rowcount], [lastrowid], [description] and the fetch position). The
    batch state belongs to [VTGateCursor] and is not its concern. *)
Definition _clear_list_state : method unit :=
  assign (set_results None);;
  assign (set_rowcount None);;
  assign (set_lastrowid None);;
  assign (set_description PyNone);;
  assign (set_index None).

(** Modelled from the spec: [close] of the base list cursor, which
    releases the fetch resources. *)
Definition BaseListCursor_close : method unit := _clear_list_state.

(** [__init__]: the attributes after construction. *)
Definition __init__ (keyspace tablet_type keyspace_ids keyranges : pyobj)
    (writable as_transaction : bool) : t :=
  {| _writable := writable; description := PyNone; index := None;
     keyranges := keyranges; keyspace := keyspace;
     keyspace_ids := keyspace_ids; lastrowid := None; results := None;
     routing := PyNone; rowcount := Some 0; tablet_type := tablet_type;
     as_transaction := as_transaction; effective_caller_id := PyNone;
     result_sets := []; result_set_index := None |}.

(** [self.results, self.rowcount, self.lastrowid, self.description = rs]. *)
Definition assign_result_set (rs : result_set value) : method unit :=
  let '(results, rowcount, lastrowid, description) := rs in
  assign (set_results results);;
  assign (set_rowcount rowcount);;
  assign (set_lastrowid lastrowid);;
  assign (set_description description).

Section methods.
Variable connection : connection value.

(** [execute(self, sql, bind_variables, **kargs)]: [None] after a
    transaction directive, [self.rowcount] otherwise. *)
Definition execute (sql : string) (bind_variables : pyobj)
    : method (option Z) :=
  _clear_list_state;;
  is_directive ← _handle_transaction_sql sql;
  if is_directive : bool then mret None else
  let write_query := write_sql_pattern_match sql in
  (if write_query then
     writable ← is_writable;
     if negb writable
     then raise (DatabaseError ["DML on a non-writable cursor"; sql])
     else mret ()
   else mret ());;
  c ← get_self;
  writable ← is_writable;
  rs ← invoke (_execute connection)
          (Call_execute sql bind_variables (keyspace c) (tablet_type c)
             (keyspace_ids c) (keyranges c) (negb writable)
             (effective_caller_id c));
  assign_result_set rs;;
  c ← get_self;
  mret (rowcount c).

(** [execute_entity_ids(self, sql, bind_variables,
    entity_keyspace_id_map, entity_column_name)]. *)
Definition execute_entity_ids (sql : string)
    (bind_variables entity_keyspace_id_map entity_column_name : pyobj)
    : method (option Z) :=
  _clear_list_state;;
  let write_query := write_sql_pattern_match sql in
  (if write_query
   then raise (DatabaseError
                 ["execute_entity_ids is not allowed for write queries"])
   else mret ());;
  c ← get_self;
  writable ← is_writable;
  rs ← invoke (_execute_entity_ids connection)
          (Call_execute_entity_ids sql bind_variables (keyspace c)
             (tablet_type c) entity_keyspace_id_map entity_column_name
             (negb writable) (effective_caller_id c));
  assign_result_set rs;;
  c ← get_self;
  mret (rowcount c).

(** [close]. *)
Definition close : method unit :=
  BaseListCursor_close;;
  _clear_batch_state.

(** [nextset]: [True] ([Some true]) or [None]. The index was just set;
    were it unset at the test, using it as an index would be a
    [TypeError]. *)
Definition nextset : method (option bool) :=
  c ← get_self;
  (match result_set_index c with
   | None => assign (set_result_set_index (Some 0%nat))
   | Some i => assign (set_result_set_index (Some (i + 1)%nat))
   end);;
  _clear_list_state;;
  c ← get_self;
  match result_set_index c with
  | None => raise TypeError
  | Some i =>
      if bool_decide (i < length (result_sets c))%nat then
        rs ← lift (getitem (result_sets c) i);
        assign_result_set rs;;
        mret (Some true)
      else
        _clear_batch_state;;
        mret None
  end.

(** [executemany(self, sql, params_list)]; [sql] may be [None]. *)
Definition executemany (sql : option string)
    (params_list : list (gmap string pyobj)) : method unit :=
  sql_list ← lift
    (match sql with
     | Some s =>
         if bool_decide (s ≠ "")
         then Return (replicate (length params_list) (PyStr s))
         else mapM (λ params, dict_getitem params "sql") params_list
     | None => mapM (λ params, dict_getitem params "sql") params_list
     end);
  bind_variables_list ← lift
    (mapM (λ params, dict_getitem params "bind_variables") params_list);
  keyspace_list ← lift
    (mapM (λ params, dict_getitem params "keyspace") params_list);
  keyspace_ids_list ← lift
    (mapM (λ params, dict_getitem params "keyspace_ids") params_list);
  _clear_batch_state;;
  c ← get_self;
  rss ← invoke (_execute_batch connection)
           (Call_execute_batch sql_list bind_variables_list keyspace_list
              keyspace_ids_list (tablet_type c) (as_transaction c)
              (effective_caller_id c));
  assign (set_result_sets rss);;
  nextset;;
  mret ().

(** [k] calls of [nextset] in a row, with what each reported. *)
Fixpoint nextset_times (k : nat) : method (list (option bool)) :=
  match k with
  | O => mret []
  | S k' =>
      r ← nextset;
      rs ← nextset_times k';
      mret (r :: rs)
  end.
End methods.
End with_value.
Arguments t : clear implicits.
End VTGateCursor.

(** ** [StreamVTGateCursor] *)

Module StreamVTGateCursor.
Section with_value.
Context {value : Type}.

Record t : Type := {
  _writable : bool;
  keyranges : pyobj;
  keyspace : pyobj;
  keyspace_ids : pyobj;
  routing : pyobj;
  tablet_type : pyobj;
  effective_caller_id : pyobj;
  generator : option (list (row value));
  description : pyobj
}.

Definition set_generator (v : option (list (row value))) (c : t) : t :=
  {| _writable := _writable c; keyranges := keyranges c;
     keyspace := keyspace c; keyspace_ids := keyspace_ids c;
     routing := routing c; tablet_type := tablet_type c;
     effective_caller_id := effective_caller_id c; generator := v;
     description := description c |}.
Definition set_description (v : pyobj) (c : t) : t :=
  {| _writable := _writable c; keyranges := keyranges c;
     keyspace := keyspace c; keyspace_ids := keyspace_ids c;
     routing := routing c; tablet_type := tablet_type c;
     effective_caller_id := effective_caller_id c;
     generator := generator c; description := v |}.

Abbreviation method := (M t).

(** [__init__]: the attributes after construction. *)
Definition __init__ (keyspace tablet_type keyspace_ids keyranges : pyobj)
    (writable : bool) : t :=
  {| _writable := writable; keyranges := keyranges; keyspace := keyspace;
     keyspace_ids := keyspace_ids; routing := PyNone;
     tablet_type := tablet_type; effective_caller_id := PyNone;
     generator := None; description := PyNone |}.

(** [is_writable]. *)
Definition is_writable : method bool :=
  c ← get_self; mret (_writable c).

(** Modelled from the spec: [_clear_stream_state] of the base stream
    cursor, which clears the prior stream state (the row producer and the
    description). *)
Definition _clear_stream_state : method unit :=
  assign (set_generator None);;
  assign (set_description PyNone).

Section methods.
Variable connection : connection value.

(** [execute(self, sql, bind_variables, **kargs)]. *)
Definition execute (sql : string) (bind_variables : pyobj) : method Z :=
  c ← get_self;
  if _writable c
  then raise (ProgrammingError ["Streaming query cannot be writable"])
  else
    _clear_stream_state;;
    c ← get_self;
    writable ← is_writable;
    r ← invoke (_stream_execute connection)
           (Call_stream_execute sql bind_variables (keyspace c)
              (tablet_type c) (keyspace_ids c) (keyranges c)
              (negb writable) (effective_caller_id c));
    let '(generator, description) := r in
    assign (set_generator (Some generator));;
    assign (set_description description);;
    mret 0.
End methods.
End with_value.
Arguments t : clear implicits.
End StreamVTGateCursor.

(** ** Statement texts that begin with a write keyword *)

(** A run of whitespace: whitespace characters, one after the other. *)
Inductive whitespace_run : string → Prop :=
  | whitespace_run_nil : whitespace_run EmptyString
  | whitespace_run_cons (w s : string) :
      w ∈ whitespace → whitespace_run s → whitespace_run (w ++ s)%string.

(** [text] is [word] up to the case of its letters: character by
    character, [text] has the letter of [word], its capital, or a
    character whose lower or upper case is one of the two. *)
Inductive equal_ignoring_case : string → string → Prop :=
  | equal_ignoring_case_nil : equal_ignoring_case EmptyString EmptyString
  | equal_ignoring_case_cons (ch text : string) (a : ascii) (word : string) :
      ch ∈ ignorecase_chars a → equal_ignoring_case text word →
      equal_ignoring_case (ch ++ text)%string (String a word).

(** The statement begins, after leading whitespace and case-insensitively,
    with [insert], [update] or [delete]. *)
Definition begins_with_write (sql : string) : Prop :=
  ∃ blanks keyword rest word : string,
    sql = (blanks ++ keyword ++ rest)%string ∧
    whitespace_run blanks ∧
    word ∈ ["insert"; "update"; "delete"] ∧
    equal_ignoring_case keyword word.

(** ** Checks on classes of characters *)

(** No character of the class is the start of another one. *)
Definition prefix_free (chars : list string) : bool :=
  forallb (λ a,
    forallb (λ b,
      match strip_prefix a b with
      | Some _ => bool_decide (a = b)
      | None => true
      end) chars) chars.

(** Some character of the class starts with the byte [c]. *)
Definition starts_one (chars : list string) (c : ascii) : bool :=
  existsb (λ w,
    match w with
    | String c' _ => bool_decide (c' = c)
    | EmptyString => true
    end) chars.

(** The characters that a write keyword can start with. *)
Definition write_initials : list string :=
  (ignorecase_chars "i" ++ ignorecase_chars "u" ++ ignorecase_chars "d")%list.

(** No byte of the text is an ASCII letter. *)
Fixpoint caseless (s : string) : bool :=
  match s with
  | EmptyString => true
  | String c s' =>
      let n := byte_of c in
      negb (((65 <=? n) && (n <=? 90)) || ((97 <=? n) && (n <=? 122)))
      && caseless s'
  end.

(** Every byte. *)
Definition all_bytes : list ascii := (λ n, byte (Z.of_nat n)) <$> seq 0 256.

(** The class is closed under changes of ASCII case: a character of the
    class has no ASCII letter, or is a single byte all of whose case
    variants are in the class. *)
Definition case_closed (chars : list string) : bool :=
  forallb (λ w,
    caseless w
    || match w with
       | String c EmptyString =>
           forallb (λ x,
             negb (bool_decide (lower_byte x = lower_byte c))
             || bool_decide (String x EmptyString ∈ chars)) all_bytes
       | _ => false
       end) chars.

(** ** Sample data for worked examples *)

Definition sample_result_set : result_set Z :=
  (Some [[1; 10]; [2; 20]], Some 2, None, PyObject "fields").

(** A connection that answers every statement with the sample result set,
    a batch with one sample result set per statement, and a stream with
    two rows. *)
Definition sample_connection : connection Z := {|
  _execute := λ _ _, Return sample_result_set;
  _execute_entity_ids := λ _ _, Return sample_result_set;
  _execute_batch := λ _ c,
    match c with
    | Call_execute_batch sql_list _ _ _ _ _ _ =>
        Return (replicate (length sql_list) sample_result_set)
    | _ => Raise (UpstreamError "not a batch call")
    end;
  _stream_execute := λ _ _, Return ([[1; 10]; [2; 20]], PyObject "fields")
|}.

Definition sample_params : gmap string pyobj :=
  <["bind_variables" := PyObject "{}"]>
    (<["keyspace" := PyStr "ks"]>
       (<["keyspace_ids" := PyObject "[]"]> ∅)).

(** A freshly constructed cursor, nothing called yet. *)
Definition sample_world (writable : bool) : world (VTGateCursor.t Z) :=
  World (VTGateCursor.__init__ (PyStr "ks") (PyStr "replica") PyNone PyNone
           writable false) [] [].

Definition sample_stream_world (writable : bool)
    : world (StreamVTGateCursor.t Z) :=
  World (StreamVTGateCursor.__init__ (PyStr "ks") (PyStr "replica") PyNone
           PyNone writable) [] [].

(** ** Reading [fetch_aggregate]'s arguments and results *)

(** What the first loop of [fetch_aggregate] takes from an entry: the
    column, and whether the entry marks it descending. A tuple or list
    with fewer than two items gives nothing ([order_clause[1]] fails);
    items after the second are never looked at. *)
Definition entry_view (oc : order_clause) : option (string * bool) :=
  match oc with
  | Bare column => Some (column, false)
  | Seq (column :: direction :: _) =>
      Some (column, bool_decide (ascii_lower direction = "desc"))
  | Seq _ => None
  end.

(** The columns of the entries, in order, and the columns of the entries
    marked descending. *)
Definition order_columns (order_by_columns : list order_clause) : list string :=
  omap (λ oc, fst <$> entry_view oc) order_by_columns.

Definition order_desc_columns (order_by_columns : list order_clause)
    : list string :=
  omap (λ oc, v ← entry_view oc; if v.2 : bool then Some v.1 else None)
    order_by_columns.

(** ** [VTGateCursor.fetch_aggregate_function] *)

(** [list(generator)]: pull every item, in order; the first pull that
    raises ends it. *)
Definition drain {A} (generator : list (outcome A)) : outcome (list A) :=
  mapM id generator.

Section fetch_aggregate_function.
Context {value : Type}.

(** [fetch_aggregate_function(self, func)], as a function of [fetched],
    the list that [self.fetchall()] returns. The generator expression
    [(row[0] for row in ...)] is lazy: each pull yields the first column of
    the next row or raises, and [func] decides how far to pull. *)
Definition fetch_aggregate_function {R : Type}
    (func : list (outcome value) → outcome R)
    (fetched : list (row value)) : outcome R :=
  func ((λ row, getitem row 0) <$> fetched).
End fetch_aggregate_function.

(** ** Views of a cursor *)

(** The attributes that [VTGateCursor.__init__] sets from its arguments. *)
Definition constructed_with {value : Type} (c : VTGateCursor.t value)
    : bool * pyobj * pyobj * pyobj * pyobj * bool :=
  (VTGateCursor._writable c, VTGateCursor.keyspace c,
   VTGateCursor.tablet_type c, VTGateCursor.keyspace_ids c,
   VTGateCursor.keyranges c, VTGateCursor.as_transaction c).

(** The tuple [(self.results, self.rowcount, self.lastrowid,
    self.description)]. *)
Definition current_result_set {value : Type} (c : VTGateCursor.t value)
    : result_set value :=
  (VTGateCursor.results c, VTGateCursor.rowcount c, VTGateCursor.lastrowid c,
   VTGateCursor.description c).

(** The attributes that [StreamVTGateCursor.__init__] sets from its
    arguments. *)
Definition stream_constructed_with {value : Type}
    (c : StreamVTGateCursor.t value) : bool * pyobj * pyobj * pyobj * pyobj :=
  (StreamVTGateCursor._writable c, StreamVTGateCursor.keyspace c,
   StreamVTGateCursor.tablet_type c, StreamVTGateCursor.keyspace_ids c,
   StreamVTGateCursor.keyranges c).

(** * Properties *)

(** ** The built-in stable sort *)

Section stable_order_facts.
Context {A : Type} (lt : A → A → bool) (D : A → Prop).
Hypothesis lt_asym : ∀ x y, lt x y = true → lt y x = false.
Hypothesis lt_negtrans :
  ∀ x y z, D y → lt x z = true → lt x y = true ∨ lt y z = true.

Lemma insert_ordered_perm x l : insert_ordered lt x l ≡ₚ x :: l.
Proof.
  induction l as [|y l IH]; simpl; [done|].
  destruct (lt y x); [|done].
  rewrite IH. apply Permutation_swap.
Qed.

Lemma stable_order_perm l : stable_order lt l ≡ₚ l.
Proof.
  induction l as [|x l IH]; simpl; [done|].
  by rewrite insert_ordered_perm, IH.
Qed.

Lemma insert_ordered_sorted x l :
  Forall D l →
  StronglySorted (λ a b, lt b a = false) l →
  StronglySorted (λ a b, lt b a = false) (insert_ordered lt x l).
Proof.
  induction l as [|y l IH]; simpl; intros HD Hs.
  - repeat constructor.
  - apply Forall_cons in HD as [HDy HD].
    apply StronglySorted_inv in Hs as [Hs Hy].
    destruct (lt y x) eqn:Hyx.
    + constructor; [by apply IH|].
      rewrite insert_ordered_perm. constructor; [by apply lt_asym|done].
    + constructor; [by constructor|].
      constructor; [done|].
      rewrite Forall_forall in Hy |- *. intros z Hz.
      destruct (lt z x) eqn:Hzx; [|done].
      destruct (lt_negtrans z y x HDy Hzx) as [Hzy|Hyx'].
      * specialize (Hy z Hz). congruence.
      * congruence.
Qed.

Lemma stable_order_sorted l :
  Forall D l → StronglySorted (λ a b, lt b a = false) (stable_order lt l).
Proof.
  induction l as [|x l IH]; simpl; intros HD; [constructor|].
  apply Forall_cons in HD as [_ HD].
  apply insert_ordered_sorted; [|by apply IH].
  by rewrite stable_order_perm.
Qed.

Lemma insert_ordered_stable r x l :
  D r →
  filter (λ a, ties lt r a) (insert_ordered lt x l) = filter (λ a, ties lt r a) (x :: l).
Proof.
  intros HDr. induction l as [|y l IH]; simpl; [done|].
  destruct (lt y x) eqn:Hyx; [|done].
  rewrite filter_cons, IH, !filter_cons.
  destruct (decide (ties lt r y)) as [Hy|Hy], (decide (ties lt r x)) as [Hx|Hx];
    try done.
  exfalso. unfold ties in Hx, Hy.
  apply andb_prop_elim in Hx as [Hx1 Hx2], Hy as [Hy1 Hy2].
  apply negb_prop_elim in Hx1, Hx2, Hy1, Hy2.
  destruct (lt_negtrans y r x HDr Hyx) as [E|E]; rewrite E in *; auto.
Qed.

Lemma stable_order_stable r l :
  D r → filter (λ a, ties lt r a) (stable_order lt l) = filter (λ a, ties lt r a) l.
Proof.
  intros HDr. induction l as [|x l IH]; simpl; [done|].
  by rewrite insert_ordered_stable, !filter_cons, IH.
Qed.
End stable_order_facts.

Lemma insert_ordered_fmap {A B} (f : B → A) (ltB : B → B → bool)
    (ltA : A → A → bool) x s :
  (∀ y, y ∈ s → ltB y x = ltA (f y) (f x)) →
  f <$> insert_ordered ltB x s = insert_ordered ltA (f x) (f <$> s).
Proof.
  induction s as [|y s IH]; simpl; intros Hf; [done|].
  rewrite <-(Hf y) by left.
  destruct (ltB y x); simpl; [|done].
  f_equal. apply IH. intros z Hz. apply Hf. by right.
Qed.

Lemma stable_order_fmap {A B} (f : B → A) (ltB : B → B → bool)
    (ltA : A → A → bool) l :
  (∀ x y, x ∈ l → y ∈ l → ltB x y = ltA (f x) (f y)) →
  f <$> stable_order ltB l = stable_order ltA (f <$> l).
Proof.
  induction l as [|x l IH]; simpl; intros Hf; [done|].
  rewrite (insert_ordered_fmap f ltB ltA).
  - f_equal. apply IH. intros y z Hy Hz. apply Hf; by right.
  - intros y Hy. rewrite stable_order_perm in Hy. apply Hf; [by right|by left].
Qed.

Lemma StronglySorted_reverse {A} (R : relation A) l :
  StronglySorted R l → StronglySorted (flip R) (reverse l).
Proof.
  induction 1 as [|x l Hs IH Hx]; [constructor|].
  rewrite reverse_cons. apply StronglySorted_app; split_and!.
  - intros a b Ha Hb. apply list_elem_of_singleton in Hb as ->.
    rewrite elem_of_reverse in Ha. rewrite Forall_forall in Hx. by apply Hx.
  - exact IH.
  - repeat constructor.
Qed.

(** ** The sort, when its comparisons return and when one raises *)

Section stable_sort_facts.
Context {A : Type} (lt : A → A → outcome bool).

Lemma insert_sorted_ordered (ltb : A → A → bool) x l :
  (∀ y, y ∈ l → lt y x = Return (ltb y x)) →
  insert_sorted lt x l = Return (insert_ordered ltb x l).
Proof.
  induction l as [|y l IH]; simpl; intros Hlt; [done|].
  rewrite (Hlt y) by left. simpl. destruct (ltb y x); [|done].
  rewrite IH; [done|]. intros z Hz. apply Hlt. by right.
Qed.

Lemma stable_sort_ordered (ltb : A → A → bool) l :
  (∀ x y, x ∈ l → y ∈ l → lt x y = Return (ltb x y)) →
  stable_sort lt l = Return (stable_order ltb l).
Proof.
  induction l as [|x l IH]; simpl; intros Hlt; [done|].
  rewrite IH by (intros y z Hy Hz; apply Hlt; by right). simpl.
  apply insert_sorted_ordered. intros y Hy.
  rewrite stable_order_perm in Hy. apply Hlt; [by right|by left].
Qed.

Lemma insert_sorted_perm x l out :
  insert_sorted lt x l = Return out → out ≡ₚ x :: l.
Proof.
  revert out. induction l as [|y l IH]; simpl; intros out.
  - by intros [= <-].
  - destruct (lt y x) as [[]|]; simpl; [|by intros [= <-]|done].
    destruct (insert_sorted lt x l) as [l''|]; simpl; [|done].
    intros [= <-]. rewrite (IH l'') by done. apply Permutation_swap.
Qed.

Lemma stable_sort_perm l out : stable_sort lt l = Return out → out ≡ₚ l.
Proof.
  revert out. induction l as [|x l IH]; simpl; intros out.
  - by intros [= <-].
  - destruct (stable_sort lt l) as [s|]; simpl; [|done].
    intros ->%insert_sorted_perm. by rewrite (IH s).
Qed.

Lemma insert_sorted_Raise x l e :
  insert_sorted lt x l = Raise e → ∃ y, y ∈ l ∧ lt y x = Raise e.
Proof.
  induction l as [|y l IH]; simpl; [done|].
  destruct (lt y x) as [[]|e'] eqn:Hyx; simpl.
  - destruct (insert_sorted lt x l) as [l''|e'']; simpl; [done|].
    intros [= ->]. destruct IH as (z & Hz & Hzx); [done|].
    exists z. split; [by right|done].
  - done.
  - intros [= ->]. exists y. split; [by left|done].
Qed.

Lemma stable_sort_Raise l e :
  stable_sort lt l = Raise e → ∃ x y, x ∈ l ∧ y ∈ l ∧ lt x y = Raise e.
Proof.
  induction l as [|x l IH]; simpl; [done|].
  destruct (stable_sort lt l) as [s|e'] eqn:Hs; simpl.
  - intros (y & Hy & Hyx)%insert_sorted_Raise.
    rewrite (stable_sort_perm _ _ Hs) in Hy.
    exists y, x. split_and!; [by right|by left|done].
  - intros [= ->]. destruct IH as (y & z & Hy & Hz & Hyz); [done|].
    exists y, z. split_and!; [by right|by right|done].
Qed.
End stable_sort_facts.

(** ** Outcomes of [mapM] and of the keyed sort *)

Lemma mapM_Return {A B} (f : A → outcome B) l ks :
  mapM f l = Return ks ↔ Forall2 (λ x k, f x = Return k) l ks.
Proof.
  revert ks. induction l as [|x l IH]; intros ks; simpl.
  - split; [intros [= <-]; constructor|by inversion 1].
  - split.
    + unfold mbind, outcome_bind at 1. destruct (f x) as [k|] eqn:Hk; [|done].
      simpl. unfold mbind, outcome_bind.
      destruct (mapM f l) as [ks'|] eqn:Hks; [|done].
      intros [= <-]. constructor; [done|by apply IH].
    + inversion 1 as [|? k ? ks' Hk Hks]; subst.
      apply IH in Hks. by rewrite Hk; simpl; rewrite Hks.
Qed.

Lemma mapM_returns {A B} (f : A → outcome B) l :
  Forall (λ x, returns (f x)) l → returns (mapM f l).
Proof.
  induction 1 as [|x l [k Hk] _ [ks Hks]]; [by exists []|].
  exists (k :: ks). simpl. by rewrite Hk; simpl; rewrite Hks.
Qed.

Lemma mapM_Raise {A B} (f : A → outcome B) l e :
  mapM f l = Raise e → Exists (λ x, f x = Raise e) l.
Proof.
  induction l as [|x l IH]; simpl; [done|].
  unfold mbind, outcome_bind at 1. destruct (f x) as [k|e'] eqn:Hk.
  - simpl. unfold mbind, outcome_bind.
    destruct (mapM f l) as [ks|e'']; [done|].
    intros [= ->]. right. by apply IH.
  - intros [= ->]. by left.
Qed.

Lemma stable_sort_returns {A} (lt : A → A → outcome bool) l :
  (∀ x y, returns (lt x y)) → returns (stable_sort lt l).
Proof.
  intros Hlt. destruct (stable_sort lt l) as [s|e] eqn:Hs; [by eexists|].
  apply stable_sort_Raise in Hs as (x & y & _ & _ & Hxy).
  destruct (Hlt x y) as [b Hb]. congruence.
Qed.

Section keyed_sort_outcomes.
Context {value : Type} `{PyLt value}.
Implicit Types (r : row value) (l out : list (row value)).

(** A keyed sort that returns had a key for every item and returns the
    items it was given. *)
Lemma list_sort_Return i rev l out :
  list_sort (itemgetter i) rev l = Return out →
  Forall (λ r, is_Some (r !! i)) l ∧ out ≡ₚ l.
Proof.
  unfold list_sort.
  destruct (mapM (itemgetter i) l) as [keys|] eqn:Hkeys; [|done].
  apply mapM_Return in Hkeys. simpl. intros Hout. split.
  - apply Forall_forall. intros r Hr.
    apply list_elem_of_lookup in Hr as [n Hn].
    destruct (Forall2_lookup_l _ _ _ _ _ Hkeys Hn) as (k & _ & Hk).
    unfold itemgetter in Hk. destruct (r !! i); [by eexists|done].
  - assert (Hlen : length l = length keys) by by eapply Forall2_length.
    destruct rev.
    + destruct (stable_sort _ _) as [s|] eqn:Hs; [|done].
      injection Hout as <-. apply stable_sort_perm in Hs.
      rewrite fmap_reverse, reverse_Permutation, Hs, reverse_Permutation.
      rewrite snd_zip; [done|lia].
    + destruct (stable_sort _ _) as [s|] eqn:Hs; [|done].
      injection Hout as <-. apply stable_sort_perm in Hs.
      rewrite Hs, snd_zip; [done|lia].
Qed.

(** The keys are computed before anything is compared: an item without
    the column makes the sort raise [IndexError], whatever the values. *)
Lemma list_sort_short i rev l :
  Exists (λ r, r !! i = None) l →
  list_sort (itemgetter i) rev l = Raise IndexError.
Proof.
  intros Hex. unfold list_sort.
  destruct (mapM (itemgetter i) l) as [keys|e] eqn:Hkeys.
  - exfalso. apply mapM_Return in Hkeys.
    apply Exists_exists in Hex as (r & Hr & Hnone).
    apply list_elem_of_lookup in Hr as [n Hn].
    destruct (Forall2_lookup_l _ _ _ _ _ Hkeys Hn) as (k & _ & Hk).
    unfold itemgetter in Hk. by rewrite Hnone in Hk.
  - apply mapM_Raise, Exists_exists in Hkeys as (r & _ & Hr).
    unfold itemgetter in Hr. destruct (r !! i); [done|]. by injection Hr as <-.
Qed.

(** A keyed sort raises [IndexError], for an item without the column, or
    what a comparison of two values raised. *)
Lemma list_sort_Raise i rev l e :
  list_sort (itemgetter i) rev l = Raise e →
  (e = IndexError ∧ Exists (λ r, r !! i = None) l) ∨
  (∃ a b : value, py_lt a b = Raise e).
Proof.
  unfold list_sort.
  destruct (mapM (itemgetter i) l) as [keys|e'] eqn:Hkeys.
  - simpl. intros Hout. right.
    destruct rev.
    + destruct (stable_sort _ _) as [s|e'] eqn:Hs; [done|].
      injection Hout as ->.
      apply stable_sort_Raise in Hs as (p & q & _ & _ & Hpq). eauto.
    + destruct (stable_sort _ _) as [s|e'] eqn:Hs; [done|].
      injection Hout as ->.
      apply stable_sort_Raise in Hs as (p & q & _ & _ & Hpq). eauto.
  - intros [= ->]. left. apply mapM_Raise in Hkeys.
    apply Exists_exists in Hkeys as (r & Hr & Hget).
    unfold itemgetter in Hget. destruct (r !! i) eqn:Hri; [done|].
    injection Hget as <-. split; [done|].
    apply Exists_exists. eauto.
Qed.

Lemma list_sort_returns_total i rev l :
  (∀ a b : value, returns (py_lt a b)) →
  Forall (λ r, is_Some (r !! i)) l → returns (list_sort (itemgetter i) rev l).
Proof.
  intros Hlt Hl.
  destruct (list_sort (itemgetter i) rev l) as [out|e] eqn:Hout; [by eexists|].
  apply list_sort_Raise in Hout as [[_ Hex]|(a & b & Hab)].
  - apply Exists_exists in Hex as (r & Hr & Hnone).
    rewrite Forall_forall in Hl. destruct (Hl r Hr) as [v Hv]. congruence.
  - destruct (Hlt a b) as [? ?]. congruence.
Qed.
End keyed_sort_outcomes.

(** ** One pass of [sort_row_list_by_columns] *)

Section row_sort_facts.
Context {value : Type} `{PyLt value} `{!PyLtLaws value}.
Implicit Types (r x y : row value) (l out : list (row value)).

Lemma key_lt_asym i x y : key_lt i x y = true → key_lt i y x = false.
Proof.
  unfold key_lt. destruct (x !! i), (y !! i); try done. apply py_lt_asym.
Qed.

Lemma key_lt_negtrans i x y z :
  is_Some (y !! i) →
  key_lt i x z = true → key_lt i x y = true ∨ key_lt i y z = true.
Proof.
  unfold key_lt. intros [b ->]. destruct (x !! i), (z !! i); try done.
  apply py_lt_negtrans.
Qed.

Lemma col_tied_refl i x : col_tied i x x = true.
Proof.
  unfold col_tied, ties. destruct (key_lt i x x) eqn:E; [|done].
  by rewrite (key_lt_asym _ _ _ E) in E.
Qed.

Lemma col_tied_sym i x y : col_tied i x y = col_tied i y x.
Proof. unfold col_tied, ties. apply andb_comm. Qed.

Lemma itemgetter_Return i r v : itemgetter i r = Return v ↔ r !! i = Some v.
Proof. unfold itemgetter. destruct (r !! i); split; congruence. Qed.

Lemma py_lt_below (a b : value) : py_lt a b = Return (py_below a b).
Proof. unfold py_below. by destruct (py_lt_returns a b) as [? ->]. Qed.

Lemma list_sort_itemgetter i rev l out :
  list_sort (itemgetter i) rev l = Return out →
  Forall (λ r, is_Some (r !! i)) l ∧
  out = if rev then reverse (stable_order (key_lt i) (reverse l))
        else stable_order (key_lt i) l.
Proof.
  unfold list_sort.
  destruct (mapM (itemgetter i) l) as [keys|] eqn:Hkeys; [|done].
  apply mapM_Return in Hkeys. simpl.
  assert (Hsort : ∀ d : list (value * row value),
            stable_sort (λ p q, py_lt p.1 q.1) d
            = Return (stable_order (λ p q, py_below p.1 q.1) d)).
  { intros d. apply stable_sort_ordered. intros p q _ _. apply py_lt_below. }
  rewrite !Hsort.
  assert (Hlen : length l = length keys) by by eapply Forall2_length.
  assert (Hdec : ∀ p, p ∈ zip keys l → p.2 !! i = Some p.1).
  { clear Hlen. induction Hkeys as [|r k l' keys' Hk _ IH]; simpl.
    - by intros p ?%elem_of_nil.
    - intros p [->|Hp]%elem_of_cons; [by apply itemgetter_Return|by apply IH]. }
  assert (Hcmp : ∀ p q, p ∈ zip keys l → q ∈ zip keys l →
            py_below p.1 q.1 = key_lt i p.2 q.2).
  { intros p q Hp%Hdec Hq%Hdec. unfold key_lt. by rewrite Hp, Hq. }
  intros Hout. split.
  - apply Forall_forall. intros r Hr.
    apply list_elem_of_lookup in Hr as [n Hn].
    destruct (Forall2_lookup_l _ _ _ _ _ Hkeys Hn) as (k & _ & Hk).
    apply itemgetter_Return in Hk. by exists k.
  - destruct rev; simpl in Hout; injection Hout as <-.
    + rewrite fmap_reverse.
      rewrite (stable_order_fmap snd _ (key_lt i)).
      * rewrite fmap_reverse, snd_zip; [done|lia].
      * intros p q Hp Hq. rewrite elem_of_reverse in Hp, Hq.
        exact (Hcmp p q Hp Hq).
    + rewrite (stable_order_fmap snd _ (key_lt i)) by exact Hcmp.
      rewrite snd_zip; [done|lia].
Qed.

Lemma list_sort_returns i rev l :
  Forall (λ r, is_Some (r !! i)) l → returns (list_sort (itemgetter i) rev l).
Proof. apply list_sort_returns_total, py_lt_returns. Qed.

(** What one keyed sort on column [i] establishes. *)
Lemma list_sort_spec i rev l out :
  list_sort (itemgetter i) rev l = Return out →
  Forall (λ r, is_Some (r !! i)) l ∧
  out ≡ₚ l ∧
  StronglySorted (λ x y, col_before i rev y x = false) out ∧
  ∀ r, is_Some (r !! i) →
    filter (λ x, col_tied i r x) out = filter (λ x, col_tied i r x) l.
Proof.
  intros [Hcols ->]%list_sort_itemgetter. split; [done|].
  pose proof (key_lt_asym i) as Hasym.
  pose proof (key_lt_negtrans i) as Hneg.
  destruct rev; split_and!.
  - by rewrite reverse_Permutation, stable_order_perm, reverse_Permutation.
  - apply (StronglySorted_reverse (λ a b, key_lt i b a = false)).
    eapply stable_order_sorted; [exact Hasym|exact Hneg|].
    by apply Forall_reverse.
  - intros r Hr. unfold col_tied.
    rewrite filter_reverse, (stable_order_stable _ _ Hneg) by done.
    by rewrite filter_reverse, reverse_involutive.
  - apply stable_order_perm.
  - by apply (stable_order_sorted _ _ Hasym Hneg).
  - intros r Hr. unfold col_tied.
    by rewrite (stable_order_stable _ _ Hneg).
Qed.
End row_sort_facts.

(** ** Successive passes compose into the lexicographic order *)

Lemma StronglySorted_filter {A} (R : relation A) (P : A → Prop)
    `{!∀ x, Decision (P x)} l :
  StronglySorted R l → StronglySorted R (filter P l).
Proof.
  induction 1 as [|x l Hs IH Hx]; [constructor|].
  rewrite filter_cons. destruct (decide (P x)); [|done].
  constructor; [done|].
  rewrite Forall_forall in Hx |- *. intros y [_ Hy]%list_elem_of_filter. by apply Hx.
Qed.

Lemma filter_andb {A} (f g : A → bool) (l : list A) :
  filter (λ x, f x && g x) l = filter (λ x, g x) (filter (λ x, f x) l).
Proof.
  induction l as [|x l IH]; [done|].
  rewrite !filter_cons. destruct (f x) eqn:Hf; simpl.
  - rewrite filter_cons. destruct (g x); simpl; by rewrite IH.
  - done.
Qed.

Lemma filter_bool_comm {A} (f g : A → bool) (l : list A) :
  filter (λ x, g x) (filter (λ x, f x) l) = filter (λ x, f x) (filter (λ x, g x) l).
Proof.
  rewrite <-!filter_andb. apply list_filter_iff. intros x. by rewrite andb_comm.
Qed.

Section lexicographic.
Context {value : Type} `{PyLt value} `{!PyLtLaws value}.
Context {column : Type} `{EqDecision column}.
Implicit Types (r x y : row value) (l out : list (row value)).

(** A list sorted on column [i] whose classes of ties on that column are
    each sorted by a second order is sorted by the combined order. *)
Lemma sorted_by_column_then i d (before : row value → row value → bool) out :
  StronglySorted (λ x y, col_before i d y x = false) out →
  (∀ r, r ∈ out →
     StronglySorted (λ x y, before y x = false)
       (filter (λ x, col_tied i r x) out)) →
  StronglySorted
    (λ x y, col_before i d y x || col_tied i y x && before y x = false) out.
Proof.
  induction out as [|a l IH]; intros Hs Hcls; [constructor|].
  apply StronglySorted_inv in Hs as [Hs Ha]. constructor.
  - apply IH; [done|]. intros r Hr.
    specialize (Hcls r (list_elem_of_further _ _ _ Hr)).
    rewrite filter_cons in Hcls. destruct (decide _); [|done].
    by apply StronglySorted_inv in Hcls as [? _].
  - specialize (Hcls a (list_elem_of_here _ _)).
    rewrite filter_cons_True in Hcls by (by rewrite col_tied_refl).
    apply StronglySorted_inv in Hcls as [_ Hcls].
    rewrite Forall_forall in Ha, Hcls |- *. intros y Hy.
    rewrite (Ha y Hy). simpl.
    destruct (col_tied i y a) eqn:Hty; [|done]. simpl.
    apply Hcls, list_elem_of_filter. split; [|done].
    by rewrite col_tied_sym, Hty.
Qed.

Lemma sort_passes_cons (desc : list column) (a : outcome (row_seq value))
    i c cs :
  foldl (sort_pass desc) a (reverse (enumerate_from i (c :: cs))) =
  sort_pass desc
    (foldl (sort_pass desc) a (reverse (enumerate_from (S i) cs))) (i, c).
Proof. simpl. by rewrite reverse_cons, foldl_snoc. Qed.

Lemma sort_pass_Return (desc : list column) (mid : outcome (row_seq value))
    i c res :
  sort_pass desc mid (i, c) = Return res →
  ∃ m, mid = Return m ∧
    list_sort (itemgetter i) (bool_decide (c ∈ desc)) (items m)
      = Return (items res).
Proof.
  unfold sort_pass. destruct mid as [m|]; [|done]. simpl.
  intros Hres. exists m. split; [done|].
  destruct m as [l|l]; simpl in *;
    destruct (list_sort _ _ l) as [l'|]; simpl in *; try done;
    by injection Hres as <-.
Qed.

Lemma sort_passes_spec (desc : list column) rows cs i res :
  foldl (sort_pass desc) (Return rows) (reverse (enumerate_from i cs))
    = Return res →
  Forall (λ r, ∀ j, (i ≤ j < i + length cs)%nat → is_Some (r !! j))
    (items rows) ∧
  items res ≡ₚ items rows ∧
  StronglySorted
    (λ x y, lex_before_from i (declared_desc cs desc) y x = false)
    (items res) ∧
  ∀ r, r ∈ items rows →
    filter (λ x, tied_from i (declared_desc cs desc) r x) (items res)
    = filter (λ x, tied_from i (declared_desc cs desc) r x) (items rows).
Proof.
  revert i res. induction cs as [|c cs IH]; intros i res.
  - simpl. intros [= <-]. split_and!; [|done| |done].
    + apply Forall_forall. intros r _ j. lia.
    + induction (items rows); constructor; [done|by apply Forall_true].
  - rewrite sort_passes_cons. intros (m & Hm & Hsort)%sort_pass_Return.
    apply IH in Hm as (Hcols & Hperm & Hsorted & Hstable).
    apply list_sort_spec in Hsort as (Hcol & Hperm' & Hsorted' & Hstable').
    assert (Hi : ∀ r, r ∈ items rows → is_Some (r !! i)).
    { intros r Hr. rewrite <-Hperm in Hr.
      rewrite Forall_forall in Hcol. by apply Hcol. }
    split_and!.
    + rewrite Forall_forall in Hcols |- *. intros r Hr j Hj.
      destruct (decide (j = i)) as [->|]; [by apply Hi|].
      apply (Hcols r Hr). simpl in Hj. lia.
    + by rewrite Hperm'.
    + simpl. apply sorted_by_column_then; [done|].
      intros r Hr. rewrite Hstable'.
      * by apply StronglySorted_filter.
      * apply Hi. by rewrite <-Hperm, <-Hperm'.
    + intros r Hr. simpl.
      rewrite !(filter_andb (col_tied i r)).
      rewrite Hstable' by by apply Hi.
      rewrite (filter_bool_comm (col_tied i r)), Hstable by done.
      apply filter_bool_comm.
Qed.

Lemma sort_passes_returns (desc : list column) rows cs i :
  Forall (λ r, (i + length cs ≤ length r)%nat) (items rows) →
  returns
    (foldl (sort_pass desc) (Return rows) (reverse (enumerate_from i cs))).
Proof.
  revert i. induction cs as [|c cs IH]; intros i Hlen; [by eexists|].
  rewrite sort_passes_cons.
  destruct (IH (S i)) as [m Hm].
  { eapply Forall_impl; [done|]. simpl. intros r. simpl. lia. }
  rewrite Hm. apply sort_passes_spec in Hm as (_ & Hperm & _).
  destruct (list_sort_returns i (bool_decide (c ∈ desc)) (items m))
    as [l' Hl'].
  { rewrite Hperm. eapply Forall_impl; [done|]. simpl. intros r Hr.
    apply lookup_lt_is_Some. lia. }
  unfold sort_pass. simpl. destruct m; simpl in *; rewrite Hl'; by eexists.
Qed.
End lexicographic.

(** ** [sort_row_list_by_columns] *)

#[global] Instance Z_py_lt_laws : PyLtLaws Z.
Proof.
  split; unfold py_below, py_lt, Z_py_lt.
  - intros x y. by eexists.
  - intros x y ?%Z.ltb_lt. apply Z.ltb_ge. lia.
  - intros x y z ?%Z.ltb_lt.
    destruct (Z.ltb_spec x y); [by left|right]. apply Z.ltb_lt. lia.
Qed.




Lemma sort_passes_by_positions {value : Type} `{PyLt value}
    {column : Type} `{EqDecision column}
    (a : outcome (row_seq value)) (desc : list column) cs i :
  foldl (sort_pass desc) a (reverse (enumerate_from i cs)) =
  foldl (λ acc entry,
           row_list ← acc;
           l' ← list_sort (itemgetter entry.1) entry.2 (items row_list);
           mret (AsList l'))
    a (reverse (enumerate_from i (declared_desc cs desc))).
Proof.
  revert i. induction cs as [|c cs IH]; intros i; [done|].
  simpl. rewrite !reverse_cons, !foldl_snoc, <-IH.
  destruct (foldl _ _ _) as [[l|l]|e]; done.
Qed.

Lemma declared_desc_agree {column : Type} `{EqDecision column}
    (cols1 desc1 cols2 desc2 : list column) :
  length cols1 = length cols2 →
  (∀ i c1 c2, cols1 !! i = Some c1 → cols2 !! i = Some c2 →
     (c1 ∈ desc1 ↔ c2 ∈ desc2)) →
  declared_desc cols1 desc1 = declared_desc cols2 desc2.
Proof.
  revert cols2. induction cols1 as [|c1 cols1 IH]; intros [|c2 cols2];
    simpl; intros Hlen Hagree; try done.
  f_equal.
  - apply bool_decide_ext, (Hagree 0%nat); done.
  - apply IH; [lia|]. intros i. apply (Hagree (S i)).
Qed.

(** C10. The pass for the [i]-th entry of [sort_columns] sorts on the row
    element at position [i]; the entry itself only decides, by its
    membership in [desc_columns], whether that pass is reversed. Hence two
    calls whose [sort_columns] have the same length and agree, entry by
    entry, on membership in their [desc_columns] give the same outcome on
    the same rows. *)
Theorem sort_row_list_by_columns_keys_are_positions
    {value : Type} `{PyLt value} {column : Type} `{EqDecision column}
    (row_list : row_seq value)
    (sort_columns1 desc_columns1 sort_columns2 desc_columns2 : list column) :
  sort_row_list_by_columns row_list sort_columns1 desc_columns1
    = sort_by_positions row_list (declared_desc sort_columns1 desc_columns1) ∧
  (length sort_columns1 = length sort_columns2 →
   (∀ i c1 c2,
      sort_columns1 !! i = Some c1 → sort_columns2 !! i = Some c2 →
      (c1 ∈ desc_columns1 ↔ c2 ∈ desc_columns2)) →
   sort_row_list_by_columns row_list sort_columns1 desc_columns1
   = sort_row_list_by_columns row_list sort_columns2 desc_columns2).
Proof.
  split; [apply sort_passes_by_positions|].
  intros Hlen Hagree. unfold sort_row_list_by_columns, enumerate.
  rewrite !sort_passes_by_positions.
  by rewrite (declared_desc_agree _ _ _ _ Hlen Hagree).
Qed.

Lemma sort_row_list_by_columns_keys_are_positions_witness :
  sort_row_list_by_columns (AsList [[2; 1]; [1; 2]; [1; 1]]) ["a"; "b"] ["a"]
  = sort_row_list_by_columns (AsList [[2; 1]; [1; 2]; [1; 1]])
      ["x"; "y"] ["z"; "x"].
Proof.
  apply (sort_row_list_by_columns_keys_are_positions (value := Z)
           (AsList [[2; 1]; [1; 2]; [1; 1]]) ["a"; "b"] ["a"]
           ["x"; "y"] ["z"; "x"]).
  - reflexivity.
  - intros i c1 c2 H1 H2. destruct i as [|[|i]]; simplify_eq/=;
      rewrite !elem_of_cons, !elem_of_nil; intuition discriminate.
Defined.

(** ** [fetch_aggregate] *)

Lemma islice_in_range {A} (l : list A) (stop : Z) :
  0 ≤ stop ≤ sys_maxsize → islice l stop = Return (take (Z.to_nat stop) l).
Proof.
  intros [? ?]. unfold islice.
  by rewrite (proj2 (Z.leb_le 0 stop)), (proj2 (Z.leb_le stop sys_maxsize)).
Qed.

Lemma slice_to_nonneg {A} (l : list A) (stop : Z) :
  0 ≤ stop → slice_to l stop = take (Z.to_nat stop) l.
Proof. intros ?. unfold slice_to. by rewrite (proj2 (Z.leb_le 0 stop)). Qed.

Lemma strip_no_columns {A} (l : list (list A)) :
  (λ row, drop 0 row) <$> l = l.
Proof. induction l as [|x l IH]; simpl; [done|]. f_equal. exact IH. Qed.

(** C6, as stated, fails: not every limit is a row count. With no sort
    column the rows go through [itertools.islice], which refuses a
    negative limit, and one above [sys.maxsize], with [ValueError]. *)
Lemma fetch_aggregate_empty_order_limit_refused :
  fetch_aggregate (value := Z) [[1; 1; 10]; [2; 2; 20]] [] (-1)
  = Raise ValueError ∧
  fetch_aggregate (value := Z) [[1; 1; 10]; [2; 2; 20]] [] (2 ^ 63)
  = Raise ValueError.
Proof. split; reflexivity. Qed.

(** C6, amended. With an empty [order_by_columns] and a limit that is a
    row count ([0 <= limit <= sys.maxsize]), [fetch_aggregate] returns the
    first [limit] fetched rows, in their order and as they are. *)
Theorem fetch_aggregate_empty_order
    {value : Type} `{PyLt value} (fetched : list (row value)) (limit : Z) :
  0 ≤ limit ≤ sys_maxsize →
  fetch_aggregate fetched [] limit = Return (take (Z.to_nat limit) fetched).
Proof.
  intros Hlimit. unfold fetch_aggregate. simpl.
  rewrite islice_in_range by done. simpl. apply f_equal, strip_no_columns.
Qed.

Lemma fetch_aggregate_empty_order_witness :
  fetch_aggregate [[1; 1; 10]; [2; 2; 20]; [3; 3; 30]] [] 2
  = Return [[1; 1; 10]; [2; 2; 20]].
Proof.
  apply (fetch_aggregate_empty_order (value := Z)
           [[1; 1; 10]; [2; 2; 20]; [3; 3; 30]] 2).
  vm_compute. split; discriminate.
Defined.




(** ** The write pattern *)

Lemma string_app_assoc (a b c : string) :
  ((a ++ b) ++ c)%string = (a ++ b ++ c)%string.
Proof.
  induction a as [|x a IH]; [done|].
  change (String x ((a ++ b) ++ c)%string = String x (a ++ b ++ c)%string).
  by rewrite IH.
Qed.

Lemma string_app_cons (c : ascii) (a b : string) :
  (String c a ++ b)%string = String c (a ++ b)%string.
Proof. done. Qed.

Lemma string_app_inv_length (a b x y : string) :
  String.length a = String.length b →
  (a ++ x)%string = (b ++ y)%string → a = b ∧ x = y.
Proof.
  revert b. induction a as [|c a IH]; intros [|d b]; try done.
  rewrite !string_app_cons. cbn [String.length]. intros [= Hlen] [= -> Heq].
  destruct (IH b Hlen Heq) as [-> ->]. done.
Qed.

Lemma string_app_cases (a b x y : string) :
  (a ++ x)%string = (b ++ y)%string →
  (∃ z, b = (a ++ z)%string) ∨ (∃ z, a = (b ++ z)%string).
Proof.
  revert b. induction a as [|c a IH]; intros b; [left; by exists b|].
  destruct b as [|d b]; [right; by eexists|].
  rewrite !string_app_cons. intros [= -> Heq].
  destruct (IH b Heq) as [[z ->]|[z ->]]; [left|right]; by exists z.
Qed.

Lemma strip_prefix_Some p s r :
  strip_prefix p s = Some r ↔ s = (p ++ r)%string.
Proof.
  revert s. induction p as [|a p IH]; intros s.
  - simpl. split; [by intros [= ->]|by intros ->].
  - rewrite string_app_cons. destruct s as [|c s]; simpl; [done|].
    case_bool_decide as Hac.
    + subst c. rewrite IH. split; [by intros ->|by intros [= ->]].
    + split; [done|]. by intros [= -> _].
Qed.

Lemma strip_prefix_app p r : strip_prefix p (p ++ r)%string = Some r.
Proof. by apply strip_prefix_Some. Qed.

(** *** A character class and the texts that start with one of its
    characters *)

Lemma prefix_free_spec chars a b z :
  prefix_free chars = true →
  a ∈ chars → b ∈ chars → b = (a ++ z)%string → a = b.
Proof.
  unfold prefix_free. rewrite forallb_forall. intros Hfree Ha Hb ->.
  apply list_elem_of_In in Ha, Hb.
  specialize (Hfree a Ha). rewrite forallb_forall in Hfree.
  specialize (Hfree _ Hb). rewrite strip_prefix_app in Hfree.
  by apply bool_decide_eq_true in Hfree.
Qed.

Lemma match_char_Some chars s w r :
  match_char chars s = Some (w, r) → w ∈ chars ∧ s = (w ++ r)%string.
Proof.
  induction chars as [|a chars IH]; simpl; [done|].
  destruct (strip_prefix a s) as [rest|] eqn:Hrest.
  - intros [= <- <-]. split; [by left|by apply strip_prefix_Some].
  - intros [Hw Hs]%IH. split; [by right|done].
Qed.

Lemma match_char_None chars s w r :
  match_char chars s = None → w ∈ chars → s ≠ (w ++ r)%string.
Proof.
  induction chars as [|a chars IH]; simpl; [by intros _ ?%elem_of_nil|].
  destruct (strip_prefix a s) as [rest|] eqn:Hrest; [done|].
  intros Hnone [->|Hw]%elem_of_cons Hs; [|by eapply IH].
  apply strip_prefix_Some in Hs. congruence.
Qed.

Lemma match_char_app chars w r :
  prefix_free chars = true → w ∈ chars →
  match_char chars (w ++ r)%string = Some (w, r).
Proof.
  intros Hfree Hw.
  destruct (match_char chars (w ++ r)%string) as [[w' r']|] eqn:Hm.
  - apply match_char_Some in Hm as [Hw' Heq].
    assert (w = w') as <-.
    { destruct (string_app_cases _ _ _ _ Heq) as [[z Hz]|[z Hz]].
      - by eapply prefix_free_spec.
      - symmetry. by eapply prefix_free_spec. }
    by destruct (string_app_inv_length w w r r' eq_refl Heq) as [_ <-].
  - by destruct (match_char_None _ _ w r Hm Hw).
Qed.

Lemma starts_one_elem chars c w :
  String c w ∈ chars → starts_one chars c = true.
Proof.
  intros Hin. unfold starts_one. apply existsb_exists.
  exists (String c w). split; [by apply list_elem_of_In|].
  by apply bool_decide_eq_true.
Qed.

Lemma starts_one_app chars1 chars2 c :
  starts_one (chars1 ++ chars2) c = starts_one chars1 c || starts_one chars2 c.
Proof. apply existsb_app. Qed.

Lemma match_char_first chars c s w r :
  match_char chars (String c s) = Some (w, r) → starts_one chars c = true.
Proof.
  intros [Hw Heq]%match_char_Some. destruct w as [|c' w].
  - unfold starts_one. apply existsb_exists.
    exists EmptyString. split; [by apply list_elem_of_In|done].
  - rewrite string_app_cons in Heq. injection Heq as -> _.
    by eapply starts_one_elem.
Qed.

(** *** The two classes of the pattern *)

Lemma whitespace_prefix_free : prefix_free whitespace = true.
Proof. vm_compute. reflexivity. Qed.

Lemma ignorecase_prefix_free a : prefix_free (ignorecase_chars a) = true.
Proof. destruct a as [[] [] [] [] [] [] [] []]; vm_compute; reflexivity. Qed.

Lemma whitespace_starts w :
  w ∈ whitespace →
  ∃ c w', w = String c w' ∧ starts_one whitespace c = true.
Proof.
  intros Hw. destruct w as [|c w'].
  - exfalso. revert Hw. apply (bool_decide_eq_false_1 _). vm_compute. reflexivity.
  - exists c, w'. split; [done|]. by eapply starts_one_elem.
Qed.

Lemma space_not_write_initial c :
  starts_one whitespace c = true → starts_one write_initials c = false.
Proof.
  destruct c as [[] [] [] [] [] [] [] []]; vm_compute;
    (reflexivity || discriminate).
Qed.

Lemma is_space_whitespace c :
  is_space c = true → String c EmptyString ∈ whitespace.
Proof.
  intros Hc. apply (bool_decide_eq_true_1 _). revert Hc.
  destruct c as [[] [] [] [] [] [] [] []]; vm_compute;
    (reflexivity || discriminate).
Qed.

Lemma initial_of_token c :
  starts_one whitespace c || starts_one write_initials c = true →
  is_space c = false →
  lower_byte c ≠ "b"%char ∧ lower_byte c ≠ "c"%char ∧ lower_byte c ≠ "r"%char.
Proof.
  destruct c as [[] [] [] [] [] [] [] []]; vm_compute;
    intros H1 H2; try discriminate H1; try discriminate H2;
    split_and!; discriminate.
Qed.

(** *** Literals and the alternation *)

Lemma match_literal_ic_iff lit s :
  match_literal_ic lit s = true ↔
  ∃ keyword rest, s = (keyword ++ rest)%string ∧
    equal_ignoring_case keyword lit.
Proof.
  split.
  - revert s. induction lit as [|a lit IH]; intros s; simpl.
    + intros _. exists EmptyString, s. split; [done|constructor].
    + destruct (match_char _ s) as [[ch s']|] eqn:Hch; [|done].
      apply match_char_Some in Hch as [Hch ->].
      intros (keyword & rest & -> & Hk)%IH.
      exists (ch ++ keyword)%string, rest.
      split; [by rewrite string_app_assoc|by constructor].
  - intros (keyword & rest & -> & Hk).
    induction Hk as [|ch text a word Hch Hk IH]; [done|].
    rewrite string_app_assoc. simpl.
    by rewrite (match_char_app _ _ _ (ignorecase_prefix_free a) Hch).
Qed.

Lemma match_write_keyword_iff s :
  match_write_keyword s = true ↔
  ∃ keyword rest word, s = (keyword ++ rest)%string ∧
    word ∈ ["insert"; "update"; "delete"] ∧
    equal_ignoring_case keyword word.
Proof.
  unfold match_write_keyword. rewrite !orb_true_iff, !match_literal_ic_iff.
  split.
  - intros [[H|H]|H]; destruct H as (keyword & rest & -> & Hk);
      eexists keyword, rest, _; (split; [done|]); (split; [|exact Hk]);
      rewrite !elem_of_cons; auto.
  - intros (keyword & rest & word & -> & Hw & Hk).
    rewrite !elem_of_cons, elem_of_nil in Hw.
    destruct Hw as [->|[->|[->|[]]]]; eauto 6.
Qed.

Lemma match_write_keyword_initial c s :
  match_write_keyword (String c s) = true →
  starts_one write_initials c = true.
Proof.
  unfold match_write_keyword, write_initials.
  rewrite !starts_one_app, !orb_true_iff.
  intros [[H|H]|H]; cbn [match_literal_ic] in H;
    destruct (match_char _ (String c s)) as [[w r]|] eqn:Hm; try done;
    apply match_char_first in Hm; auto.
Qed.

(** *** The pattern *)

Lemma match_from_skip p s :
  match_from (String.length p) (p ++ s)%string = match_from 0 s.
Proof. induction p as [|c p IH]; [by destruct s|]. exact IH. Qed.

Lemma space_width_app w s :
  w ∈ whitespace → space_width (w ++ s)%string = String.length w.
Proof.
  intros Hw. unfold space_width.
  by rewrite (match_char_app _ _ _ whitespace_prefix_free Hw).
Qed.

(** Behind a whitespace character the match starts afresh. *)
Lemma match_from_space w s :
  w ∈ whitespace → match_from 0 (w ++ s)%string = match_from 0 s.
Proof.
  intros Hw. pose proof (space_width_app w s Hw) as Hwidth.
  destruct (whitespace_starts w Hw) as (c & w' & -> & Hc).
  rewrite string_app_cons in *. cbn [match_from]. rewrite Hwidth.
  cbn [String.length]. rewrite match_from_skip.
  destruct (match_write_keyword _) eqn:Hk; [|done].
  apply match_write_keyword_initial in Hk.
  by rewrite (space_not_write_initial c Hc) in Hk.
Qed.

Lemma match_from_split skip s :
  match_from skip s = true →
  ∃ p blanks s',
    s = (p ++ blanks ++ s')%string ∧ String.length p = skip ∧
    whitespace_run blanks ∧ match_write_keyword s' = true.
Proof.
  revert skip. induction s as [|c s IH]; intros skip.
  - destruct skip; [|done]. cbn [match_from]. rewrite orb_false_r. intros Hk.
    exists EmptyString, EmptyString, EmptyString. split_and!; [done..|constructor|done].
  - destruct skip as [|skip].
    + cbn [match_from]. intros [Hk|Hs]%orb_prop.
      * exists EmptyString, EmptyString, (String c s).
        split_and!; [done..|constructor|done].
      * unfold space_width in Hs.
        destruct (match_char whitespace (String c s)) as [[w r]|] eqn:Hm;
          [|done].
        apply match_char_Some in Hm as [Hw Heq].
        destruct w as [|c' w]; [done|].
        rewrite string_app_cons in Heq. injection Heq as <- ->.
        cbn [String.length] in Hs.
        apply IH in Hs as (p & blanks & s' & Heq & Hlen & Hb & Hk).
        apply string_app_inv_length in Heq as [<- ->]; [|done].
        exists EmptyString, (String c w ++ blanks)%string, s'.
        split_and!; [|done| |done].
        -- by rewrite (string_app_assoc (String c w)).
        -- by constructor.
    + cbn [match_from]. intros (p & blanks & s' & -> & <- & Hb & Hk)%IH.
      by exists (String c p), blanks, s'.
Qed.

(** The compiled pattern matches exactly the texts that begin, after
    leading whitespace and case-insensitively, with a write keyword. *)
Lemma write_sql_pattern_match_iff sql :
  write_sql_pattern_match sql = true ↔ begins_with_write sql.
Proof.
  unfold write_sql_pattern_match. split.
  - intros (p & blanks & s' & -> & Hp & Hb & Hk)%match_from_split.
    destruct p; [|done].
    apply match_write_keyword_iff in Hk as (keyword & rest & word & -> & Hw & Hk).
    by exists blanks, keyword, rest, word.
  - intros (blanks & keyword & rest & word & -> & Hb & Hw & Hk).
    induction Hb as [|w s Hin Hb IH].
    + assert (match_write_keyword (keyword ++ rest)%string = true) as Hm
        by (apply match_write_keyword_iff; eauto 6).
      change (EmptyString ++ keyword ++ rest)%string
        with (keyword ++ rest)%string.
      destruct (keyword ++ rest)%string; cbn [match_from]; by rewrite Hm.
    + by rewrite string_app_assoc, match_from_space.
Qed.

Lemma write_leading_token sql :
  write_sql_pattern_match sql = true →
  ∃ c t, ascii_lower (leading_token sql) = String c t ∧
    c ≠ "b"%char ∧ c ≠ "c"%char ∧ c ≠ "r"%char.
Proof.
  unfold write_sql_pattern_match, leading_token.
  induction sql as [|a sql IH]; [done|].
  intros Hm. cbn [lstrip]. destruct (is_space a) eqn:Ha.
  - apply IH.
    pose proof (match_from_space _ sql (is_space_whitespace a Ha)) as Hsp.
    change (match_from 0 (String a sql) = match_from 0 sql) in Hsp.
    by rewrite <-Hsp.
  - cbn [first_word]. rewrite Ha.
    exists (lower_byte a), (ascii_lower (first_word sql)). split; [done|].
    apply initial_of_token; [|done].
    cbn [match_from] in Hm. apply orb_prop in Hm as [Hk|Hs].
    + by rewrite (match_write_keyword_initial _ _ Hk), orb_true_r.
    + unfold space_width in Hs.
      destruct (match_char whitespace (String a sql)) as [[w r]|] eqn:Hw;
        [|done].
      by rewrite (match_char_first _ _ _ _ _ Hw).
Qed.

(** A statement that the write pattern matches is no transaction
    directive. *)
Lemma write_not_transaction_directive sql :
  write_sql_pattern_match sql = true → is_transaction_directive sql = false.
Proof.
  intros (c & t & Htoken & Hb & Hc & Hr)%write_leading_token.
  unfold is_transaction_directive. rewrite Htoken.
  rewrite !bool_decide_eq_false_2; [done|..]; by intros [= -> _].
Qed.

(** ** The cursors *)

(** Run the monadic plumbing of a method body. *)
Ltac run_method :=
  cbv beta iota zeta delta
    [mbind M_bind mret M_ret get_self assign raise lift invoke
     _handle_transaction_sql
     VTGateCursor._clear_list_state VTGateCursor._clear_batch_state
     VTGateCursor.BaseListCursor_close VTGateCursor.is_writable
     VTGateCursor.assign_result_set
     StreamVTGateCursor._clear_stream_state StreamVTGateCursor.is_writable
     self calls handled fst snd];
  simpl.

(** C2. On a cursor that is not writable, [execute] raises the policy
    error, which carries the statement, for every statement that begins,
    after leading whitespace and case-insensitively, with a write keyword,
    and reaches neither the connection nor the transaction handler. Every
    other statement goes on: a transaction directive to the transaction
    handler (result [None]), anything else to the connection's [_execute],
    whose row count or exception is the result. Whitespace and case are
    those of the pattern: the characters of [str.isspace], and the case
    variants that [re.IGNORECASE] knows. *)
Theorem execute_on_non_writable_cursor
    {value : Type} (connection : connection value)
    (sql : string) (bind_variables : pyobj)
    (w : world (VTGateCursor.t value)) :
  VTGateCursor._writable (self w) = false →
  let run := VTGateCursor.execute connection sql bind_variables w in
  (begins_with_write sql →
     run.1 = Raise (DatabaseError ["DML on a non-writable cursor"; sql]) ∧
     calls run.2 = calls w ∧ handled run.2 = handled w) ∧
  (¬ begins_with_write sql →
     (is_transaction_directive sql = true ∧
      run.1 = Return None ∧
      calls run.2 = calls w ∧ handled run.2 = (handled w ++ [sql])%list)
     ∨
     (is_transaction_directive sql = false ∧
      handled run.2 = handled w ∧
      let c := Call_execute sql bind_variables
                 (VTGateCursor.keyspace (self w))
                 (VTGateCursor.tablet_type (self w))
                 (VTGateCursor.keyspace_ids (self w))
                 (VTGateCursor.keyranges (self w))
                 true (VTGateCursor.effective_caller_id (self w)) in
      calls run.2 = (calls w ++ [c])%list ∧
      run.1 = match _execute connection (calls w) c with
              | Return (_, rowcount, _, _) => Return rowcount
              | Raise e => Raise e
              end)).
Proof.
  intros Hw. destruct w as [c cs hs]. destruct c. simpl in Hw. subst.
  split.
  - intros Hs%write_sql_pattern_match_iff.
    unfold VTGateCursor.execute, _handle_transaction_sql.
    rewrite (write_not_transaction_directive _ Hs), Hs. by run_method.
  - intros Hs. rewrite <-write_sql_pattern_match_iff in Hs.
    apply not_true_is_false in Hs.
    unfold VTGateCursor.execute, _handle_transaction_sql. rewrite Hs.
    destruct (is_transaction_directive sql) eqn:Hd; [left; by run_method|].
    right. run_method.
    destruct (_execute _ _ _) as [[[[results' rowcount'] lastrowid'] description']|e];
      by run_method.
Qed.

Lemma execute_on_non_writable_cursor_witness :
  (VTGateCursor.execute sample_connection "  Insert into t values (1)" PyNone
     (sample_world false)).1
  = Raise (DatabaseError
             ["DML on a non-writable cursor"; "  Insert into t values (1)"]) ∧
  let sql := (utf8_encode 0xa0 ++ "in" ++ utf8_encode 0x17f ++ "ert into t")%string in
  (VTGateCursor.execute sample_connection sql PyNone (sample_world false)).1
  = Raise (DatabaseError ["DML on a non-writable cursor"; sql]).
Proof.
  split.
  - destruct (execute_on_non_writable_cursor sample_connection
                "  Insert into t values (1)" PyNone (sample_world false))
      as [Hwrite _].
    + reflexivity.
    + apply Hwrite. apply write_sql_pattern_match_iff. reflexivity.
  - intros sql.
    destruct (execute_on_non_writable_cursor sample_connection
                sql PyNone (sample_world false)) as [Hwrite _].
    + reflexivity.
    + apply Hwrite. apply write_sql_pattern_match_iff. reflexivity.
Defined.

(** [execute_entity_ids] rejects every statement that begins with a write
    keyword, writable cursor or not, before any connection primitive is
    called; the error has the message as its only argument. *)
Lemma execute_entity_ids_rejects_writes
    {value : Type} (connection : connection value) (sql : string)
    (bind_variables entity_keyspace_id_map entity_column_name : pyobj)
    (w : world (VTGateCursor.t value)) :
  begins_with_write sql →
  let run := VTGateCursor.execute_entity_ids connection sql bind_variables
               entity_keyspace_id_map entity_column_name w in
  run.1 = Raise (DatabaseError
                   ["execute_entity_ids is not allowed for write queries"]) ∧
  calls run.2 = calls w ∧ handled run.2 = handled w.
Proof.
  intros Hs%write_sql_pattern_match_iff. destruct w as [c cs hs]. destruct c.
  unfold VTGateCursor.execute_entity_ids. rewrite Hs. by run_method.
Qed.

(** C7, at a write statement: the error that [execute_entity_ids] raises
    does not carry the statement text, and no primitive was called. *)
Theorem execute_entity_ids_error_omits_statement :
  let sql := "insert into t values (1)" in
  let run := VTGateCursor.execute_entity_ids sample_connection sql PyNone
               PyNone PyNone (sample_world true) in
  run.1 = Raise (DatabaseError
                   ["execute_entity_ids is not allowed for write queries"]) ∧
  (sql ∉ ["execute_entity_ids is not allowed for write queries"]) ∧
  calls run.2 = [].
Proof.
  split_and!; [reflexivity| |reflexivity].
  rewrite list_elem_of_singleton. discriminate.
Qed.

(** C8. A streaming cursor that is writable fails at once with a
    programming error and leaves everything as it was, so no primitive is
    called; one that is not writable calls [_stream_execute] once, keeps
    the row producer and the description it answers with, and returns 0. *)
Theorem stream_execute_by_writability
    {value : Type} (connection : connection value)
    (sql : string) (bind_variables : pyobj)
    (w : world (StreamVTGateCursor.t value)) :
  let run := StreamVTGateCursor.execute connection sql bind_variables w in
  (StreamVTGateCursor._writable (self w) = true →
     run = (Raise (ProgrammingError ["Streaming query cannot be writable"]), w))
  ∧
  (StreamVTGateCursor._writable (self w) = false →
     let c := Call_stream_execute sql bind_variables
                (StreamVTGateCursor.keyspace (self w))
                (StreamVTGateCursor.tablet_type (self w))
                (StreamVTGateCursor.keyspace_ids (self w))
                (StreamVTGateCursor.keyranges (self w))
                true (StreamVTGateCursor.effective_caller_id (self w)) in
     calls run.2 = (calls w ++ [c])%list ∧
     ∀ generator description,
       _stream_execute connection (calls w) c = Return (generator, description) →
       run.1 = Return 0 ∧
       StreamVTGateCursor.generator (self run.2) = Some generator ∧
       StreamVTGateCursor.description (self run.2) = description).
Proof.
  destruct w as [c cs hs]. destruct c. simpl.
  split; intros ->; unfold StreamVTGateCursor.execute; run_method; [done|].
  destruct (_stream_execute _ _ _) as [[g d]|e]; run_method; split; try done.
  by intros ? ? [= -> ->].
Qed.

Lemma stream_execute_by_writability_witness :
  (StreamVTGateCursor.execute sample_connection "select 1" PyNone
     (sample_stream_world true)).1
  = Raise (ProgrammingError ["Streaming query cannot be writable"]) ∧
  (StreamVTGateCursor.execute sample_connection "select 1" PyNone
     (sample_stream_world false)).1
  = Return 0.
Proof.
  split.
  - destruct (stream_execute_by_writability sample_connection "select 1"
                PyNone (sample_stream_world true)) as [Hwritable _].
    by rewrite Hwritable.
  - destruct (stream_execute_by_writability sample_connection "select 1"
                PyNone (sample_stream_world false)) as [_ Hreadonly].
    destruct Hreadonly as [_ Hstored]; [reflexivity|].
    by destruct (Hstored [[1; 10]; [2; 20]] (PyObject "fields")).
Defined.

(** C9. [close] returns with the batch state cleared, whatever the state
    before, and closing again changes nothing. *)
Theorem close_clears_batch_state
    {value : Type} (w : world (VTGateCursor.t value)) :
  let run := VTGateCursor.close w in
  run.1 = Return () ∧
  VTGateCursor.result_sets (self run.2) = [] ∧
  VTGateCursor.result_set_index (self run.2) = None ∧
  VTGateCursor.close run.2 = (Return (), run.2).
Proof. destruct w as [c cs hs]. by destruct c. Qed.

(** C4, as stated, fails: after a batch of two statements, a plain
    [execute] returns and the two result sets and the index are still
    there. *)
Lemma execute_after_batch_keeps_result_sets :
  let w1 := (VTGateCursor.executemany sample_connection (Some "select 1")
               [sample_params; sample_params] (sample_world false)).2 in
  let run := VTGateCursor.execute sample_connection "select 2" PyNone w1 in
  run.1 = Return (Some 2) ∧
  VTGateCursor.result_sets (self run.2)
    = [sample_result_set; sample_result_set] ∧
  VTGateCursor.result_set_index (self run.2) = Some 0%nat.
Proof. vm_compute. done. Qed.

(** C4, amended. [execute] and [execute_entity_ids] leave the batch state
    as it was, whether they return or raise: [result_sets] and
    [result_set_index] are what they were before the call. *)
Theorem non_batch_execute_keeps_batch_state
    {value : Type} (connection : connection value) (sql : string)
    (bind_variables entity_keyspace_id_map entity_column_name : pyobj)
    (w : world (VTGateCursor.t value)) :
  let w1 := (VTGateCursor.execute connection sql bind_variables w).2 in
  let w2 := (VTGateCursor.execute_entity_ids connection sql bind_variables
               entity_keyspace_id_map entity_column_name w).2 in
  (VTGateCursor.result_sets (self w1) = VTGateCursor.result_sets (self w) ∧
   VTGateCursor.result_set_index (self w1)
     = VTGateCursor.result_set_index (self w)) ∧
  (VTGateCursor.result_sets (self w2) = VTGateCursor.result_sets (self w) ∧
   VTGateCursor.result_set_index (self w2)
     = VTGateCursor.result_set_index (self w)).
Proof.
  destruct w as [c cs hs]. destruct c as [writable ? ? ? ? ? ? ? ? ? ? ? ? ? ?].
  split.
  - unfold VTGateCursor.execute, _handle_transaction_sql.
    destruct (is_transaction_directive sql); [by run_method|].
    destruct (write_sql_pattern_match sql), writable; run_method; try done;
      destruct (_execute _ _ _) as [[[[? ?] ?] ?]|e]; by run_method.
  - unfold VTGateCursor.execute_entity_ids.
    destruct (write_sql_pattern_match sql); run_method; try done;
      destruct (_execute_entity_ids _ _ _) as [[[[? ?] ?] ?]|e]; by run_method.
Qed.

(** ** Batches *)

Lemma nextset_advances {value : Type} (w : world (VTGateCursor.t value)) rs :
  let next := match VTGateCursor.result_set_index (self w) with
              | None => 0%nat
              | Some i => (i + 1)%nat
              end in
  VTGateCursor.result_sets (self w) !! next = Some rs →
  let run := VTGateCursor.nextset w in
  run.1 = Return (Some true) ∧
  VTGateCursor.result_sets (self run.2) = VTGateCursor.result_sets (self w) ∧
  VTGateCursor.result_set_index (self run.2) = Some next ∧
  calls run.2 = calls w.
Proof.
  destruct w as [c cs hs]. destruct c as [? ? ? ? ? ? ? ? ? ? ? ? ? ? idx].
  simpl. intros Hrs. pose proof (lookup_lt_Some _ _ _ Hrs) as Hlt.
  unfold VTGateCursor.nextset, getitem.
  destruct idx; run_method; rewrite bool_decide_eq_true_2 by done;
    rewrite Hrs; destruct rs as [[[? ?] ?] ?]; by run_method.
Qed.

Lemma nextset_exhausted {value : Type} (w : world (VTGateCursor.t value)) :
  VTGateCursor.result_sets (self w)
    !! (match VTGateCursor.result_set_index (self w) with
        | None => 0 | Some i => i + 1 end)%nat = None →
  let run := VTGateCursor.nextset w in
  run.1 = Return None ∧
  VTGateCursor.result_sets (self run.2) = [] ∧
  VTGateCursor.result_set_index (self run.2) = None ∧
  calls run.2 = calls w.
Proof.
  destruct w as [c cs hs]. destruct c as [? ? ? ? ? ? ? ? ? ? ? ? ? ? idx].
  simpl. intros Hrs%lookup_ge_None.
  unfold VTGateCursor.nextset.
  destruct idx; run_method; by rewrite bool_decide_eq_false_2 by lia.
Qed.

Lemma nextset_times_advances {value : Type} k :
  ∀ (w : world (VTGateCursor.t value)) i,
  VTGateCursor.result_set_index (self w) = Some i →
  (i + k < length (VTGateCursor.result_sets (self w)))%nat →
  let run := VTGateCursor.nextset_times k w in
  run.1 = Return (replicate k (Some true)) ∧
  VTGateCursor.result_sets (self run.2) = VTGateCursor.result_sets (self w) ∧
  VTGateCursor.result_set_index (self run.2) = Some (i + k)%nat.
Proof.
  induction k as [|k IH]; intros w i Hi Hlen.
  - simpl. by rewrite Nat.add_0_r.
  - destruct (lookup_lt_is_Some_2 (VTGateCursor.result_sets (self w)) (i + 1)%nat)
      as [rs Hrs]; [lia|].
    pose proof (nextset_advances w rs) as Hadv. simpl in Hadv.
    rewrite Hi in Hadv. destruct (Hadv Hrs) as (Hr & Hsets & Hidx & _).
    destruct (IH (VTGateCursor.nextset w).2 (i + 1)%nat Hidx) as (Hr' & Hsets' & Hidx').
    { rewrite Hsets. lia. }
    cbn [VTGateCursor.nextset_times]. unfold mbind, M_bind, mret, M_ret.
    destruct (VTGateCursor.nextset w) as [r w1]. simpl in *. subst r.
    destruct (VTGateCursor.nextset_times k w1) as [r' w2]. simpl in *. subst r'.
    simpl. split_and!; [done|congruence|]. rewrite Hidx'. f_equal. lia.
Qed.

(** What [executemany] leaves behind when it returns: the batch primitive
    was called once and answered with result sets, which are stored, and
    the cursor stands on the first of them, if there is one. *)
Lemma executemany_returns {value : Type} (connection : connection value)
    (sql : option string) (params_list : list (gmap string pyobj))
    (w : world (VTGateCursor.t value)) :
  let run := VTGateCursor.executemany connection sql params_list w in
  run.1 = Return () →
  ∃ c rss,
    calls run.2 = (calls w ++ [c])%list ∧
    _execute_batch connection (calls w) c = Return rss ∧
    VTGateCursor.result_sets (self run.2) = rss ∧
    VTGateCursor.result_set_index (self run.2)
      = match rss with [] => None | _ :: _ => Some 0%nat end.
Proof.
  destruct w as [c cs hs]. destruct c.
  unfold VTGateCursor.executemany. run_method.
  repeat match goal with
  | |- context [match ?o with Return _ => _ | Raise _ => _ end] =>
      destruct o as [?|?] eqn:?; simpl; [|done]
  end.
  match goal with
  | |- context [VTGateCursor.nextset ?w0] =>
      pose proof (nextset_advances w0) as Hadv;
      pose proof (nextset_exhausted w0) as Hexh;
      destruct (VTGateCursor.nextset w0) as [r w1]
  end.
  simpl in Hadv, Hexh.
  match goal with
  | H : _execute_batch _ _ ?c0 = Return ?rss |- _ =>
      exists c0, rss; destruct rss as [|rs rss]
  end.
  - destruct Hexh as (-> & Hsets & Hidx & Hcalls); [done|]. simpl. eauto.
  - destruct (Hadv _ eq_refl) as (-> & Hsets & Hidx & Hcalls). simpl. eauto.
Qed.

(** C3, as stated, fails: for one statement the batch primitive answers
    with one result set, [executemany] returns, and the first [nextset]
    after it already reports [None]: no advance reports [True]. *)
Lemma executemany_one_statement_then_nextset :
  let run := VTGateCursor.executemany sample_connection (Some "select 1")
               [sample_params] (sample_world false) in
  run.1 = Return () ∧
  VTGateCursor.result_sets (self run.2) = [sample_result_set] ∧
  (VTGateCursor.nextset run.2).1 = Return None.
Proof. vm_compute. done. Qed.

(** C3, amended. [executemany] itself makes the first advance. When it
    returns and the batch primitive answered with [n] result sets for the
    [n] statements, the next [n - 1] calls of [nextset] (none for
    [n = 0]) report [True], and the call after them reports [None] and
    leaves [result_sets] empty and [result_set_index] unset. *)
Theorem executemany_then_nextset
    {value : Type} (connection : connection value)
    (sql : option string) (params_list : list (gmap string pyobj))
    (w : world (VTGateCursor.t value))
    (c : call) (rss : list (result_set value)) :
  let n := length params_list in
  let run := VTGateCursor.executemany connection sql params_list w in
  run.1 = Return () →
  calls run.2 = (calls w ++ [c])%list →
  _execute_batch connection (calls w) c = Return rss →
  length rss = n →
  let advances := VTGateCursor.nextset_times (n - 1) run.2 in
  advances.1 = Return (replicate (n - 1) (Some true)) ∧
  let final := VTGateCursor.nextset advances.2 in
  final.1 = Return None ∧
  VTGateCursor.result_sets (self final.2) = [] ∧
  VTGateCursor.result_set_index (self final.2) = None.
Proof.
  intros n run Hret Hcalls Hbatch Hlen.
  destruct (executemany_returns connection sql params_list w Hret)
    as (c' & rss' & Hcalls' & Hbatch' & Hsets & Hidx).
  fold run in Hcalls', Hsets, Hidx.
  rewrite Hcalls in Hcalls'. apply app_inj_tail in Hcalls' as [_ <-].
  rewrite Hbatch in Hbatch'. injection Hbatch' as <-.
  destruct rss as [|rs rss].
  - simpl in Hlen. rewrite <-Hlen. simpl. split; [done|].
    destruct (nextset_exhausted run.2) as (? & ? & ? & _); [|done].
    by rewrite Hsets.
  - destruct (nextset_times_advances (n - 1) run.2 0 Hidx)
      as (Hadv & Hsets' & Hidx').
    { rewrite Hsets. simpl in *. lia. }
    split; [done|].
    destruct (nextset_exhausted (VTGateCursor.nextset_times (n - 1) run.2).2)
      as (? & ? & ? & _); [|done].
    rewrite Hsets', Hidx', Hsets. apply lookup_ge_None. simpl in *. lia.
Qed.

Lemma executemany_then_nextset_witness :
  let run := VTGateCursor.executemany sample_connection (Some "select 1")
               [sample_params; sample_params; sample_params]
               (sample_world false) in
  (VTGateCursor.nextset_times 2 run.2).1 = Return [Some true; Some true] ∧
  (VTGateCursor.nextset (VTGateCursor.nextset_times 2 run.2).2).1
    = Return None.
Proof.
  destruct (executemany_then_nextset sample_connection (Some "select 1")
              [sample_params; sample_params; sample_params]
              (sample_world false)
              (Call_execute_batch
                 [PyStr "select 1"; PyStr "select 1"; PyStr "select 1"]
                 [PyObject "{}"; PyObject "{}"; PyObject "{}"]
                 [PyStr "ks"; PyStr "ks"; PyStr "ks"]
                 [PyObject "[]"; PyObject "[]"; PyObject "[]"]
                 (PyStr "replica") false PyNone)
              [sample_result_set; sample_result_set; sample_result_set])
    as (Hadvances & Hfinal & _).
  - vm_compute. reflexivity.
  - vm_compute. reflexivity.
  - reflexivity.
  - reflexivity.
  - split; [exact Hadvances | exact Hfinal].
Defined.

(** * Further properties *)

(** ** [sort_row_list_by_columns]: when it returns, and what it raises *)

Section sort_outcomes.
Context {value : Type} `{PyLt value} {column : Type} `{EqDecision column}.
Implicit Types (rows res : row_seq value) (cs desc : list column).

Lemma sort_passes_step desc (a : outcome (row_seq value)) i c cs :
  foldl (sort_pass desc) a (reverse (enumerate_from i (c :: cs))) =
  sort_pass desc
    (foldl (sort_pass desc) a (reverse (enumerate_from (S i) cs))) (i, c).
Proof. simpl. by rewrite reverse_cons, foldl_snoc. Qed.

Lemma sort_pass_outcome desc (mid : outcome (row_seq value)) i c :
  sort_pass desc mid (i, c) =
  match mid with
  | Return m =>
      l' ← list_sort (itemgetter i) (bool_decide (c ∈ desc)) (items m);
      mret (AsList l')
  | Raise e => Raise e
  end.
Proof. destruct mid as [[l|l]|e]; done. Qed.

Lemma sort_passes_perm desc rows cs i res :
  foldl (sort_pass desc) (Return rows) (reverse (enumerate_from i cs))
    = Return res →
  items res ≡ₚ items rows.
Proof.
  revert i res. induction cs as [|c cs IH]; intros i res.
  - by intros [= <-].
  - rewrite sort_passes_step, sort_pass_outcome.
    destruct (foldl _ _ _) as [m|e] eqn:Hm; [|done].
    unfold mbind, outcome_bind.
    destruct (list_sort _ _ _) as [l'|e] eqn:Hsort; [|done].
    intros [= <-]. simpl.
    apply list_sort_Return in Hsort as [_ Hperm].
    by rewrite Hperm, (IH _ _ Hm).
Qed.

(** The first pass to run is the one for the last sort column, and it
    takes its keys before it compares: a row without that column makes it
    raise [IndexError]. *)
Lemma sort_passes_short desc rows cs i :
  cs ≠ [] →
  Exists (λ r, (length r < i + length cs)%nat) (items rows) →
  foldl (sort_pass desc) (Return rows) (reverse (enumerate_from i cs))
  = Raise IndexError.
Proof.
  revert i. induction cs as [|c cs IH]; intros i Hne Hex; [done|].
  rewrite sort_passes_step, sort_pass_outcome.
  destruct cs as [|c' cs].
  - change (foldl (sort_pass desc) (Return rows)
              (reverse (enumerate_from (S i) []))) with (Return rows).
    cbv beta iota. rewrite list_sort_short; [done|].
    eapply Exists_impl; [exact Hex|]. simpl. intros r Hr.
    apply lookup_ge_None. lia.
  - rewrite (IH (S i)); [done..|].
    eapply Exists_impl; [exact Hex|]. simpl. intros r. lia.
Qed.

Lemma sort_passes_Raise desc rows cs i e :
  foldl (sort_pass desc) (Return rows) (reverse (enumerate_from i cs))
    = Raise e →
  (e = IndexError ∧
   Exists (λ r, (length r < i + length cs)%nat) (items rows)) ∨
  (∃ a b : value, py_lt a b = Raise e).
Proof.
  revert i. induction cs as [|c cs IH]; intros i; [done|].
  rewrite sort_passes_step, sort_pass_outcome.
  destruct (foldl _ _ _) as [m|e'] eqn:Hm.
  - pose proof (sort_passes_perm _ _ _ _ _ Hm) as Hperm.
    unfold mbind, outcome_bind.
    destruct (list_sort _ _ _) as [l'|e'] eqn:Hsort; [done|].
    intros [= ->]. apply list_sort_Raise in Hsort as [[-> Hex]|Hcmp]; [left|by right].
    split; [done|]. rewrite Hperm in Hex.
    eapply Exists_impl; [exact Hex|]. simpl.
    intros r ?%lookup_ge_None. lia.
  - intros [= ->]. destruct (IH (S i) Hm) as [[-> Hex]|Hcmp]; [left|by right].
    split; [done|]. eapply Exists_impl; [exact Hex|]. simpl. intros r. lia.
Qed.

Lemma sort_passes_returns_total desc rows cs i :
  (∀ a b : value, returns (py_lt a b)) →
  Forall (λ r, (i + length cs ≤ length r)%nat) (items rows) →
  returns
    (foldl (sort_pass desc) (Return rows) (reverse (enumerate_from i cs))).
Proof.
  intros Hlt Hlen.
  destruct (foldl _ _ _) as [res|e] eqn:Hres; [by eexists|].
  apply sort_passes_Raise in Hres as [[_ Hex]|(a & b & Hab)].
  - apply Exists_exists in Hex as (r & Hr & Hshort).
    rewrite Forall_forall in Hlen. specialize (Hlen r Hr). simpl in Hlen. lia.
  - destruct (Hlt a b) as [? ?]. congruence.
Qed.
End sort_outcomes.

(** X1. Each pass takes its keys from every row before it compares any two
    values, and the first pass to run is the one for the last sort column:
    if some row has fewer columns than there are sort columns,
    [sort_row_list_by_columns] raises [IndexError], whatever the values.
    If every row has these columns and [<] returns on the values, it
    returns. Whatever it raises is [IndexError] or what a comparison of two
    values raised. *)
Theorem sort_row_list_by_columns_outcomes
    {value : Type} `{PyLt value} {column : Type} `{EqDecision column}
    (row_list : row_seq value) (sort_columns desc_columns : list column) :
  (Exists (λ r, (length r < length sort_columns)%nat) (items row_list) →
   sort_row_list_by_columns row_list sort_columns desc_columns
   = Raise IndexError) ∧
  ((∀ a b : value, returns (py_lt a b)) →
   Forall (λ r, (length sort_columns ≤ length r)%nat) (items row_list) →
   returns (sort_row_list_by_columns row_list sort_columns desc_columns)) ∧
  (∀ e, sort_row_list_by_columns row_list sort_columns desc_columns = Raise e →
        e = IndexError ∨ ∃ a b : value, py_lt a b = Raise e).
Proof.
  unfold sort_row_list_by_columns, enumerate. split_and!.
  - intros Hex. apply sort_passes_short; [|done].
    intros ->. apply Exists_exists in Hex as (r & _ & Hr). simpl in Hr. lia.
  - intros Hlt Hlen. by apply sort_passes_returns_total.
  - intros e [[-> _]|Hcmp]%sort_passes_Raise; [by left|by right].
Qed.

Lemma sort_row_list_by_columns_outcomes_witness :
  sort_row_list_by_columns (AsList [[2; 1]; [1]]) ["a"; "b"] ["a"]
  = Raise IndexError ∧
  returns (sort_row_list_by_columns (AsList [[2; 1]; [1; 2]]) ["a"; "b"] ["a"]).
Proof.
  destruct (sort_row_list_by_columns_outcomes (value := Z)
              (AsList [[2; 1]; [1]]) ["a"; "b"] ["a"]) as (Hshort & _ & _).
  destruct (sort_row_list_by_columns_outcomes (value := Z)
              (AsList [[2; 1]; [1; 2]]) ["a"; "b"] ["a"]) as (_ & Hlong & _).
  split.
  - apply Hshort. right. left. simpl. lia.
  - apply Hlong; [intros a b; by eexists|repeat constructor].
Defined.

(** ** [sort_row_list_by_columns]: values that [<] does not order *)

Lemma scalar_py_lt_Raise (a b : scalar) e : py_lt a b = Raise e → e = TypeError.
Proof. destruct a, b; unfold py_lt, scalar_py_lt; congruence. Qed.

Lemma scalar_py_lt_None (a b : scalar) :
  a = SNone ∨ b = SNone → py_lt a b = Raise TypeError.
Proof. intros [-> | ->]; [done|by destruct a]. Qed.

(** Two or more items, one of them with the key [None]: whichever
    comparison comes first that involves this key raises. *)
Lemma stable_sort_none {A} (d : list (scalar * A)) :
  (2 ≤ length d)%nat →
  Exists (λ p, p.1 = SNone) d →
  stable_sort (λ p q, py_lt p.1 q.1) d = Raise TypeError.
Proof.
  induction d as [|x d IH]; simpl; [lia|]. intros Hlen Hex.
  destruct (stable_sort _ d) as [s|e] eqn:Hs; simpl.
  - pose proof (stable_sort_perm _ _ _ Hs) as Hperm.
    destruct s as [|y s].
    { apply Permutation_length in Hperm. simpl in *. lia. }
    simpl. rewrite scalar_py_lt_None; [done|].
    apply Exists_cons in Hex as [Hx|Hd]; [by right|].
    destruct d as [|z [|z' d]]; [simpl in *; lia| |].
    + apply Permutation_singleton_r in Hperm. injection Hperm as -> ->.
      left. by apply Exists_cons in Hd as [?|?%Exists_nil].
    + by specialize (IH ltac:(simpl; lia) Hd).
  - f_equal. apply stable_sort_Raise in Hs as (p & q & _ & _ & Hpq).
    by apply scalar_py_lt_Raise in Hpq.
Qed.

(** X28. In Python 3 [None] is ordered with nothing. Sorting on one column
    two or more rows, all of which have the column and one of which has
    [None] in it, raises [TypeError], in either direction: no row is
    returned. *)
Theorem sort_row_list_by_columns_none_raises
    {column : Type} `{EqDecision column}
    (rows : list (row scalar)) (sort_column : column)
    (desc_columns : list column) :
  (2 ≤ length rows)%nat →
  Forall (λ r, is_Some (r !! 0%nat)) rows →
  Exists (λ r, r !! 0%nat = Some SNone) rows →
  sort_row_list_by_columns (AsList rows) [sort_column] desc_columns
  = Raise TypeError.
Proof.
  intros Hlen Hcols Hnone.
  unfold sort_row_list_by_columns, enumerate.
  cbn [enumerate_from reverse foldl].
  change (foldl (sort_pass desc_columns) (Return (AsList rows)) (reverse [(0%nat, sort_column)]))
    with (sort_pass desc_columns (Return (AsList rows)) (0%nat, sort_column)).
  rewrite sort_pass_outcome. cbn [items]. unfold list_sort.
  destruct (mapM (itemgetter 0) rows) as [keys|e] eqn:Hkeys.
  - apply mapM_Return in Hkeys.
    assert (Hk : length keys = length rows) by (symmetry; by eapply Forall2_length).
    assert (Hex : Exists (λ p : scalar * row scalar, p.1 = SNone) (zip keys rows)).
    { clear Hlen Hcols Hk. induction Hkeys as [|r k rows' keys' Hrk _ IH]; simpl.
      - by apply Exists_nil in Hnone.
      - apply Exists_cons in Hnone as [Hr|Hrest]; [left|right; by apply IH].
        apply itemgetter_Return in Hrk. simpl. congruence. }
    assert (Hz : length (zip keys rows) = length rows)
      by (rewrite length_zip; lia).
    simpl. destruct (bool_decide _).
    + rewrite stable_sort_none; [done|rewrite length_reverse; lia|].
      apply Exists_exists in Hex as (p & Hp & Hp1).
      apply Exists_exists. exists p. by rewrite elem_of_reverse.
    + rewrite stable_sort_none; [done|lia|done].
  - exfalso. apply mapM_Raise, Exists_exists in Hkeys as (r & Hr & Hraise).
    rewrite Forall_forall in Hcols. destruct (Hcols r Hr) as [v Hv].
    unfold itemgetter in Hraise. by rewrite Hv in Hraise.
Qed.

Lemma sort_row_list_by_columns_none_raises_witness :
  sort_row_list_by_columns
    (AsList [[SInt 1; SInt 10]; [SNone; SInt 20]; [SInt 2; SInt 30]]) ["a"] ["a"]
  = Raise TypeError.
Proof.
  apply (sort_row_list_by_columns_none_raises
           [[SInt 1; SInt 10]; [SNone; SInt 20]; [SInt 2; SInt 30]] "a" ["a"]).
  - simpl. lia.
  - repeat constructor; by eexists.
  - right. left. reflexivity.
Defined.

(** ** The sorted order is unique, so sorting is idempotent *)

(** Two lists with the same items, both in order, that agree on the order
    within each class of ties, are the same list. *)
Lemma stable_ordered_unique {A} (before tie : A → A → bool) (l1 l2 : list A) :
  (∀ x, tie x x = true) →
  (∀ x y, before x y = false → before y x = false → tie x y = true) →
  l1 ≡ₚ l2 →
  StronglySorted (λ x y, before y x = false) l1 →
  StronglySorted (λ x y, before y x = false) l2 →
  (∀ r, r ∈ l1 → filter (λ x, tie r x) l1 = filter (λ x, tie r x) l2) →
  l1 = l2.
Proof.
  intros Hrefl Htie. revert l2.
  induction l1 as [|a l1 IH]; intros l2 Hperm Hs1 Hs2 Hcls.
  - by apply Permutation_nil_l in Hperm.
  - destruct l2 as [|b l2]; [by apply Permutation_nil_r in Hperm|].
    apply StronglySorted_inv in Hs1 as [Hs1 Ha], Hs2 as [Hs2 Hb].
    rewrite Forall_forall in Ha, Hb.
    assert (a = b) as <-.
    { pose proof (Hcls a (list_elem_of_here _ _)) as Hcl.
      rewrite filter_cons_True in Hcl by by rewrite Hrefl.
      assert (a ∈ b :: l2) as Ha2 by (rewrite <-Hperm; left).
      assert (b ∈ a :: l1) as Hb1 by (rewrite Hperm; left).
      apply elem_of_cons in Ha2 as [?|Ha2]; [done|].
      apply elem_of_cons in Hb1 as [?|Hb1]; [done|].
      rewrite filter_cons_True in Hcl by (by rewrite Htie; auto).
      by injection Hcl. }
    f_equal. apply IH; [by eapply Permutation_cons_inv|done..|].
    intros r Hr. specialize (Hcls r (list_elem_of_further _ _ _ Hr)).
    rewrite !filter_cons in Hcls.
    destruct (decide (tie r a)); [by injection Hcls|done].
Qed.

Section sort_unique.
Context {value : Type} `{PyLt value} `{!PyLtLaws value}.
Context {column : Type} `{EqDecision column}.

Lemma tied_from_refl i dirs (x : row value) : tied_from i dirs x x = true.
Proof.
  revert i. induction dirs as [|d ds IH]; intros i; simpl; [done|].
  by rewrite col_tied_refl, IH.
Qed.

Lemma lex_incomparable_tied i dirs (x y : row value) :
  lex_before_from i dirs x y = false →
  lex_before_from i dirs y x = false →
  tied_from i dirs x y = true.
Proof.
  revert i. induction dirs as [|d ds IH]; intros i; simpl; [done|].
  intros [Hxy Hr1]%orb_false_elim [Hyx Hr2]%orb_false_elim.
  assert (col_tied i x y = true) as Ht.
  { unfold col_tied, ties, col_before in *. destruct d; by rewrite Hxy, Hyx. }
  rewrite (col_tied_sym i y x), Ht in Hr2. rewrite Ht in Hr1.
  rewrite Ht. simpl in *. by apply IH.
Qed.

Lemma sort_in_order_unchanged (row_list : row_seq value)
    (sort_columns desc_columns : list column) res :
  non_decreasing (declared_desc sort_columns desc_columns) (items row_list) →
  sort_row_list_by_columns row_list sort_columns desc_columns = Return res →
  items res = items row_list.
Proof.
  intros Hsorted Hres.
  apply sort_passes_spec in Hres as (_ & Hperm & Hsorted' & Hstable).
  symmetry.
  apply (stable_ordered_unique
           (lex_before (declared_desc sort_columns desc_columns))
           (tied (declared_desc sort_columns desc_columns))); try done.
  - apply tied_from_refl.
  - apply lex_incomparable_tied.
  - intros r Hr. symmetry. by apply Hstable.
Qed.
End sort_unique.

(** X2. Rows that are already in the requested order come back in the
    same order: the sort moves nothing. *)
Theorem sort_row_list_by_columns_in_order_unchanged
    {value : Type} `{PyLt value} `{!PyLtLaws value}
    {column : Type} `{EqDecision column}
    (row_list : row_seq value) (sort_columns desc_columns : list column) :
  Forall (λ r, (length sort_columns ≤ length r)%nat) (items row_list) →
  non_decreasing (declared_desc sort_columns desc_columns) (items row_list) →
  ∃ res,
    sort_row_list_by_columns row_list sort_columns desc_columns = Return res ∧
    items res = items row_list.
Proof.
  intros Hlen Hsorted.
  destruct (sort_passes_returns desc_columns row_list sort_columns 0 Hlen)
    as [res Hres].
  exists res. split; [done|]. by eapply sort_in_order_unchanged.
Qed.

Lemma sort_row_list_by_columns_in_order_unchanged_witness :
  ∃ res,
    sort_row_list_by_columns (AsList [[2; 1]; [1; 1]; [1; 2]]) ["a"; "b"] ["a"]
      = Return res ∧
    items res = [[2; 1]; [1; 1]; [1; 2]].
Proof.
  apply (sort_row_list_by_columns_in_order_unchanged (value := Z)
           (AsList [[2; 1]; [1; 1]; [1; 2]]) ["a"; "b"] ["a"]).
  - repeat constructor.
  - repeat constructor.
Defined.

(** X3. Sorting is idempotent: sorting what [sort_row_list_by_columns]
    returned, by the same columns, returns it again. *)
Theorem sort_row_list_by_columns_idempotent
    {value : Type} `{PyLt value} `{!PyLtLaws value}
    {column : Type} `{EqDecision column}
    (row_list res : row_seq value) (sort_columns desc_columns : list column) :
  sort_row_list_by_columns row_list sort_columns desc_columns = Return res →
  sort_row_list_by_columns res sort_columns desc_columns = Return res.
Proof.
  intros Hres. destruct sort_columns as [|c cs]; [by injection Hres as <-|].
  pose proof Hres as (Hcols & Hperm & Hsorted & _)%sort_passes_spec.
  assert (∃ l, res = AsList l) as [l ->].
  { unfold sort_row_list_by_columns, enumerate in Hres.
    rewrite sort_passes_step, sort_pass_outcome in Hres.
    destruct (foldl _ _ _); [|done]. unfold mbind, outcome_bind in Hres.
    destruct (list_sort _ _ _); [|done]. injection Hres as <-. eauto. }
  destruct (sort_passes_returns desc_columns (AsList l) (c :: cs) 0)
    as [res' Hres'].
  { rewrite Hperm. eapply Forall_impl; [exact Hcols|]. simpl. intros r Hr.
    destruct (Hr (length cs)) as [v Hv]; [lia|].
    apply lookup_lt_Some in Hv. lia. }
  pose proof (sort_in_order_unchanged _ _ _ _ Hsorted Hres') as Hitems.
  unfold sort_row_list_by_columns, enumerate in Hres' |- *. rewrite Hres'.
  rewrite sort_passes_step, sort_pass_outcome in Hres'.
  destruct (foldl _ _ _); [|done]. unfold mbind, outcome_bind in Hres'.
  destruct (list_sort _ _ _); [|done]. injection Hres' as <-.
  simpl in Hitems. by rewrite Hitems.
Qed.

Lemma sort_row_list_by_columns_idempotent_witness :
  sort_row_list_by_columns (AsList [[2; 1]; [1; 1]; [1; 2]]) ["a"; "b"] ["a"]
  = Return (AsList [[2; 1]; [1; 1]; [1; 2]]).
Proof.
  apply (sort_row_list_by_columns_idempotent (value := Z)
           (AsIterable [[1; 2]; [2; 1]; [1; 1]])).
  reflexivity.
Defined.

(** ** [ascii_lower] *)

Lemma lower_byte_spec c :
  lower_byte c =
  if (65 <=? byte_of c) && (byte_of c <=? 90)
  then ascii_of_N (Z.to_N (byte_of c + 32)) else c.
Proof. done. Qed.

Lemma lower_byte_idemp c : lower_byte (lower_byte c) = lower_byte c.
Proof. destruct c as [[] [] [] [] [] [] [] []]; reflexivity. Qed.

Lemma lower_byte_high c : 128 ≤ byte_of c → lower_byte c = c.
Proof.
  intros Hc. unfold lower_byte.
  destruct (Z.leb_spec (byte_of c) 90); [lia|]. by rewrite andb_false_r.
Qed.

Lemma lower_byte_upper c :
  65 ≤ byte_of c ≤ 90 → byte_of (lower_byte c) = byte_of c + 32.
Proof.
  destruct c as [[] [] [] [] [] [] [] []]; vm_compute; intros [H1 H2];
    try reflexivity; exfalso; (by apply H1) || (by apply H2).
Qed.

Lemma lower_byte_other c :
  ¬ (65 ≤ byte_of c ≤ 90) → lower_byte c = c.
Proof.
  intros Hc. unfold lower_byte.
  destruct (Z.leb_spec 65 (byte_of c)), (Z.leb_spec (byte_of c) 90);
    simpl; try done. lia.
Qed.

(** X5. [ascii_lower] changes the bytes of ['A'..'Z'] to those of
    ['a'..'z'] (32 higher) and nothing else, in particular no byte of a
    multi-byte UTF-8 character; the length stays and a second application
    changes nothing. *)
Theorem ascii_lower_ascii_only (s : string) :
  String.length (ascii_lower s) = String.length s ∧
  ascii_lower (ascii_lower s) = ascii_lower s ∧
  ∀ i c, String.get i s = Some c →
    ∃ c', String.get i (ascii_lower s) = Some c' ∧
      byte_of c' = if (65 <=? byte_of c) && (byte_of c <=? 90)
                   then byte_of c + 32 else byte_of c.
Proof.
  unfold ascii_lower. split_and!.
  - induction s as [|a s IH]; simpl; [done|]. by rewrite IH.
  - induction s as [|a s IH]; simpl; [done|]. by rewrite lower_byte_idemp, IH.
  - induction s as [|a s IH]; intros i c; simpl; [done|].
    destruct i as [|i]; [|by apply IH].
    intros [= ->]. exists (lower_byte c). split; [done|].
    destruct (Z.leb_spec 65 (byte_of c)), (Z.leb_spec (byte_of c) 90);
      simpl; try (rewrite lower_byte_other by lia; done).
    by apply lower_byte_upper.
Qed.

Lemma ascii_lower_ascii_only_witness :
  ∃ c', String.get 0 (ascii_lower "Desc") = Some c' ∧ byte_of c' = 100.
Proof.
  destruct (ascii_lower_ascii_only "Desc") as (_ & _ & Hget).
  destruct (Hget 0%nat "D"%char eq_refl) as (c' & Hc & Hb).
  exists c'. split; [exact Hc | exact Hb].
Defined.

(** ** [write_sql_pattern] *)

Lemma lower_bytes_app (a b : string) :
  lower_bytes (a ++ b)%string = (lower_bytes a ++ lower_bytes b)%string.
Proof.
  induction a as [|c a IH]; [done|].
  rewrite string_app_cons. cbn [lower_bytes]. by rewrite IH.
Qed.

Lemma lower_bytes_app_inv (s x y : string) :
  lower_bytes s = (x ++ y)%string →
  ∃ x0 y0, s = (x0 ++ y0)%string ∧ lower_bytes x0 = x ∧ lower_bytes y0 = y.
Proof.
  revert s. induction x as [|c x IH]; intros s.
  - intros Hs. by exists EmptyString, s.
  - rewrite string_app_cons. destruct s as [|a s]; [done|].
    cbn [lower_bytes]. intros [= Ha Hs].
    destruct (IH s Hs) as (x0 & y0 & -> & Hx & Hy).
    exists (String a x0), y0. split_and!; [done| |done].
    cbn [lower_bytes]. by rewrite Ha, Hx.
Qed.

Lemma lower_byte_inv x c :
  lower_byte x = c → x = c ∨ 97 ≤ byte_of c ≤ 122.
Proof.
  intros <-. destruct (decide (65 ≤ byte_of x ≤ 90)) as [Hx|Hx].
  - right. rewrite lower_byte_upper by done. lia.
  - left. by rewrite lower_byte_other.
Qed.

Lemma caseless_lower w : caseless w = true → lower_bytes w = w.
Proof.
  induction w as [|c w IH]; [done|]. cbn [caseless lower_bytes].
  intros [Hc Hw]%andb_prop. rewrite (IH Hw). f_equal.
  apply lower_byte_other. intros Hup.
  apply negb_true_iff, orb_false_elim in Hc as [Hc _].
  apply andb_false_iff in Hc as [?%Z.leb_gt|?%Z.leb_gt]; lia.
Qed.

Lemma caseless_lower_inv u w :
  caseless w = true → lower_bytes u = w → u = w.
Proof.
  revert u. induction w as [|c w IH]; intros [|x u]; try done.
  cbn [caseless lower_bytes]. intros [Hc Hw]%andb_prop [= Hx Hu].
  rewrite (IH u Hw Hu). f_equal.
  destruct (lower_byte_inv x c Hx) as [?|Hlow]; [done|].
  apply negb_true_iff, orb_false_elim in Hc as [_ Hc].
  apply andb_false_iff in Hc as [?%Z.leb_gt|?%Z.leb_gt]; lia.
Qed.

Lemma whitespace_caseless w : w ∈ whitespace → caseless w = true.
Proof.
  assert (forallb caseless whitespace = true) as Hall
    by (vm_compute; reflexivity).
  rewrite forallb_forall in Hall. intros Hw. by apply Hall, list_elem_of_In.
Qed.

Lemma all_bytes_complete x : x ∈ all_bytes.
Proof.
  apply (bool_decide_eq_true_1 _).
  destruct x as [[] [] [] [] [] [] [] []]; vm_compute; reflexivity.
Qed.

Lemma case_closed_elem chars w :
  case_closed chars = true → w ∈ chars →
  caseless w = true ∨
  ∃ c, w = String c EmptyString ∧
    ∀ x, lower_byte x = lower_byte c → String x EmptyString ∈ chars.
Proof.
  unfold case_closed. rewrite forallb_forall.
  intros Hall Hw%list_elem_of_In. specialize (Hall _ Hw).
  apply orb_prop in Hall as [?|Hall]; [by left|right].
  destruct w as [|c [|]]; try done. exists c. split; [done|].
  rewrite forallb_forall in Hall. intros x Hx.
  specialize (Hall x (proj1 (list_elem_of_In _ _) (all_bytes_complete x))).
  rewrite bool_decide_eq_true_2 in Hall by done.
  by apply bool_decide_eq_true in Hall.
Qed.

Lemma case_closed_lower chars w :
  case_closed chars = true → w ∈ chars → lower_bytes w ∈ chars.
Proof.
  intros Hclosed Hw.
  destruct (case_closed_elem _ _ Hclosed Hw) as [Hw'|(c & -> & Hc)].
  - by rewrite caseless_lower.
  - apply Hc, lower_byte_idemp.
Qed.

Lemma case_closed_lower_inv chars u :
  case_closed chars = true → lower_bytes u ∈ chars → u ∈ chars.
Proof.
  intros Hclosed Hw.
  destruct (case_closed_elem _ _ Hclosed Hw) as [Hw'|(c & Hu & Hc)].
  - by rewrite <-(caseless_lower_inv u _ Hw' eq_refl) in Hw.
  - destruct u as [|x [|]]; try done. injection Hu as <-.
    apply Hc. by rewrite lower_byte_idemp.
Qed.

Lemma ignorecase_case_closed a : case_closed (ignorecase_chars a) = true.
Proof. destruct a as [[] [] [] [] [] [] [] []]; vm_compute; reflexivity. Qed.

Lemma whitespace_run_lower blanks :
  whitespace_run (lower_bytes blanks) ↔ whitespace_run blanks.
Proof.
  split.
  - intros Hrun. remember (lower_bytes blanks) as b eqn:Hb.
    revert blanks Hb. induction Hrun as [|w s Hw Hrun IH]; intros blanks Hb.
    + destruct blanks; [constructor|done].
    + symmetry in Hb.
      apply lower_bytes_app_inv in Hb as (w0 & s0 & -> & Hw0 & Hs0).
      apply caseless_lower_inv in Hw0 as ->; [|by apply whitespace_caseless].
      constructor; [done|]. by apply IH.
  - induction 1 as [|w s Hw Hrun IH]; [constructor|].
    rewrite lower_bytes_app, (caseless_lower w) by by apply whitespace_caseless.
    by constructor.
Qed.

Lemma equal_ignoring_case_lower keyword word :
  equal_ignoring_case (lower_bytes keyword) word ↔
  equal_ignoring_case keyword word.
Proof.
  split.
  - intros Heq. remember (lower_bytes keyword) as k eqn:Hk.
    revert keyword Hk.
    induction Heq as [|ch text a word Hch Heq IH]; intros keyword Hk.
    + destruct keyword; [constructor|done].
    + symmetry in Hk.
      apply lower_bytes_app_inv in Hk as (ch0 & text0 & -> & <- & Ht).
      constructor; [|by apply IH].
      by apply (case_closed_lower_inv _ _ (ignorecase_case_closed a)).
  - induction 1 as [|ch text a word Hch Heq IH]; [constructor|].
    rewrite lower_bytes_app. constructor; [|done].
    by apply (case_closed_lower _ _ (ignorecase_case_closed a)).
Qed.

Lemma begins_with_write_lower sql :
  begins_with_write (ascii_lower sql) ↔ begins_with_write sql.
Proof.
  unfold ascii_lower. split.
  - intros (blanks & keyword & rest & word & Hsql & Hb & Hw & Hk).
    apply lower_bytes_app_inv in Hsql as (blanks0 & tail & -> & <- & Htail).
    apply lower_bytes_app_inv in Htail as (keyword0 & rest0 & -> & <- & <-).
    exists blanks0, keyword0, rest0, word.
    split_and!; [done| |done|].
    + by apply whitespace_run_lower.
    + by apply equal_ignoring_case_lower.
  - intros (blanks & keyword & rest & word & -> & Hb & Hw & Hk).
    exists (lower_bytes blanks), (lower_bytes keyword), (lower_bytes rest), word.
    split_and!; [by rewrite !lower_bytes_app| |done|].
    + by apply whitespace_run_lower.
    + by apply equal_ignoring_case_lower.
Qed.

Lemma write_sql_pattern_match_lower sql :
  write_sql_pattern_match (ascii_lower sql) = write_sql_pattern_match sql.
Proof.
  apply eq_true_iff_eq. rewrite !write_sql_pattern_match_iff.
  apply begins_with_write_lower.
Qed.

(** X6. Leading whitespace does not count: a text and the same text behind
    any run of characters that [\s] matches (blanks, but also the
    separators [\x1c]..[\x1f], no-break space and the other spaces of
    [str.isspace]) are classified alike. *)
Theorem write_sql_pattern_skips_blanks (blanks sql : string) :
  whitespace_run blanks →
  write_sql_pattern_match (blanks ++ sql)%string = write_sql_pattern_match sql.
Proof.
  unfold write_sql_pattern_match.
  induction 1 as [|w s Hw Hrun IH]; [done|].
  by rewrite string_app_assoc, match_from_space.
Qed.

Lemma write_sql_pattern_skips_blanks_witness :
  write_sql_pattern_match
    ((" " ++ utf8_encode 0xa0 ++ utf8_encode 0x1c ++ "") ++ "update t set a = 1")
  = write_sql_pattern_match "update t set a = 1".
Proof.
  apply (write_sql_pattern_skips_blanks
           (" " ++ utf8_encode 0xa0 ++ utf8_encode 0x1c ++ "")
           "update t set a = 1").
  repeat (constructor; [apply (bool_decide_eq_true_1 _); vm_compute; reflexivity|]).
  constructor.
Defined.

(** X7. The classification is case-insensitive: two texts that differ only
    in the case of ASCII letters are classified alike. *)
Theorem write_sql_pattern_ignores_case (sql1 sql2 : string) :
  ascii_lower sql1 = ascii_lower sql2 →
  write_sql_pattern_match sql1 = write_sql_pattern_match sql2.
Proof.
  intros Heq.
  by rewrite <-(write_sql_pattern_match_lower sql1), Heq,
    write_sql_pattern_match_lower.
Qed.

Lemma write_sql_pattern_ignores_case_witness :
  write_sql_pattern_match "DeLeTe FROM t" = write_sql_pattern_match "delete from T".
Proof.
  apply (write_sql_pattern_ignores_case "DeLeTe FROM t" "delete from T").
  reflexivity.
Defined.

(** X8. The pattern has no word boundary and no end anchor: whatever is
    appended to a text classified as a write, the result is classified as
    a write too (so [inserted_rows ...] counts as a write). *)
Theorem write_sql_pattern_prefix_only (sql more : string) :
  write_sql_pattern_match sql = true →
  write_sql_pattern_match (sql ++ more)%string = true.
Proof.
  intros (blanks & keyword & rest & word & -> & Hb & Hw & Hk)%write_sql_pattern_match_iff.
  apply write_sql_pattern_match_iff.
  exists blanks, keyword, (rest ++ more)%string, word.
  split_and!; [|done..]. by rewrite !string_app_assoc.
Qed.

Lemma write_sql_pattern_prefix_only_witness :
  write_sql_pattern_match "inserted_rows = 3" = true.
Proof.
  apply (write_sql_pattern_prefix_only "insert" "ed_rows = 3"). reflexivity.
Defined.

(** ** [fetch_aggregate]: the order specification *)

Lemma order_step_view cols descs oc :
  order_step (Return (cols, descs)) oc =
  match entry_view oc with
  | Some (c, b) =>
      Return ((cols ++ [c])%list, if b then (descs ++ [c])%list else descs)
  | None => Raise IndexError
  end.
Proof.
  destruct oc as [c|[|c [|d t]]]; try done.
  simpl. by destruct (bool_decide _).
Qed.

Lemma order_steps_Raise e ocs : foldl order_step (Raise e) ocs = Raise e.
Proof. induction ocs as [|oc ocs IH]; [done|]. exact IH. Qed.

Lemma order_parse cols descs ocs :
  foldl order_step (Return (cols, descs)) ocs =
  if bool_decide (Forall (λ oc, is_Some (entry_view oc)) ocs)
  then Return ((cols ++ order_columns ocs)%list,
               (descs ++ order_desc_columns ocs)%list)
  else Raise IndexError.
Proof.
  revert cols descs. induction ocs as [|oc ocs IH]; intros cols descs.
  - cbn [foldl]. rewrite bool_decide_eq_true_2 by constructor.
    unfold order_columns, order_desc_columns. simpl. by rewrite !app_nil_r.
  - cbn [foldl]. rewrite order_step_view.
    destruct (entry_view oc) as [[c b]|] eqn:Hv.
    + rewrite IH. unfold order_columns, order_desc_columns.
      cbn [omap list_omap]. rewrite Hv. cbn.
      destruct (decide (Forall (λ oc, is_Some (entry_view oc)) ocs)) as [Hwf|Hwf].
      * rewrite !bool_decide_eq_true_2; [|by constructor|done].
        destruct b; by rewrite <-!app_assoc.
      * rewrite !bool_decide_eq_false_2; [done| |done].
        by intros [_ ?]%Forall_cons.
    + rewrite order_steps_Raise, bool_decide_eq_false_2; [done|].
      intros [[? ?] _]%Forall_cons. congruence.
Qed.

Lemma order_columns_length ocs :
  Forall (λ oc, is_Some (entry_view oc)) ocs →
  length (order_columns ocs) = length ocs.
Proof.
  induction 1 as [|oc ocs [v Hv] _ IH]; [done|].
  unfold order_columns in *. cbn [omap list_omap]. rewrite Hv. simpl.
  by rewrite IH.
Qed.

(** X9. An entry that is a tuple or list with fewer than two items makes
    [fetch_aggregate] raise [IndexError], whatever the rows, the other
    entries and the limit. *)
Theorem fetch_aggregate_short_entry_raises
    {value : Type} `{PyLt value} (fetched : list (row value))
    (order_by_columns : list order_clause) (limit : Z) (t : list string) :
  Seq t ∈ order_by_columns →
  (length t < 2)%nat →
  fetch_aggregate fetched order_by_columns limit = Raise IndexError.
Proof.
  intros Hin Hlen. unfold fetch_aggregate.
  rewrite order_parse, bool_decide_eq_false_2; [done|].
  rewrite Forall_forall. intros Hwf. destruct (Hwf _ Hin) as [v Hv].
  destruct t as [|c [|d t]]; simpl in *; try done. lia.
Qed.

Lemma fetch_aggregate_short_entry_raises_witness :
  fetch_aggregate [[1; 2; 3]] [Bare "a"; Seq ["b"]] 10 = Raise IndexError.
Proof.
  apply (fetch_aggregate_short_entry_raises (value := Z) [[1; 2; 3]]
           [Bare "a"; Seq ["b"]] 10 ["b"]).
  - right. left.
  - simpl. lia.
Defined.

Lemma omap_through_fmap {A B C} (f : A → B) (g : B → option C) (l : list A) :
  omap (λ x, g (f x)) l = omap g (f <$> l).
Proof.
  induction l as [|x l IH]; [done|].
  cbn [omap list_omap fmap list_fmap]. by rewrite IH.
Qed.

(** X10. [fetch_aggregate] takes from each entry only its column and
    whether its direction is ["desc"] up to ASCII case: a direction in
    another case, any other direction word instead of none, or further
    items in the tuple change nothing. *)
Theorem fetch_aggregate_reads_column_and_desc
    {value : Type} `{PyLt value} (fetched : list (row value))
    (order1 order2 : list order_clause) (limit : Z) :
  entry_view <$> order1 = entry_view <$> order2 →
  fetch_aggregate fetched order1 limit = fetch_aggregate fetched order2 limit.
Proof.
  intros Hview. unfold fetch_aggregate. rewrite !order_parse.
  assert (length order1 = length order2) as ->
    by (rewrite <-(length_fmap entry_view order1), Hview; apply length_fmap).
  assert (order_columns order1 = order_columns order2) as ->.
  { unfold order_columns.
    rewrite !(omap_through_fmap entry_view (fmap fst)). by rewrite Hview. }
  assert (order_desc_columns order1 = order_desc_columns order2) as ->.
  { unfold order_desc_columns.
    rewrite !(omap_through_fmap entry_view
                (λ o, v ← o; if v.2 : bool then Some v.1 else None)).
    by rewrite Hview. }
  assert (bool_decide (Forall (λ oc, is_Some (entry_view oc)) order1)
          = bool_decide (Forall (λ oc, is_Some (entry_view oc)) order2)) as ->.
  { apply bool_decide_ext.
    rewrite <-!(Forall_fmap entry_view is_Some). by rewrite Hview. }
  done.
Qed.

Lemma fetch_aggregate_reads_column_and_desc_witness :
  fetch_aggregate [[1; 2; 10]; [2; 2; 20]; [2; 1; 30]]
    [Seq ["a"; "DESC"; "nulls last"]; Seq ["b"; "asc"]] 2
  = fetch_aggregate [[1; 2; 10]; [2; 2; 20]; [2; 1; 30]]
      [Seq ["a"; "desc"]; Bare "b"] 2.
Proof.
  apply (fetch_aggregate_reads_column_and_desc (value := Z)).
  reflexivity.
Defined.

(** ** [fetch_aggregate]: sorting, truncating, stripping *)

Lemma fetch_aggregate_unfold {value : Type} `{PyLt value}
    (fetched : list (row value)) (ocs : list order_clause) (limit : Z) :
  Forall (λ oc, is_Some (entry_view oc)) ocs →
  fetch_aggregate fetched ocs limit =
  (sorted_rows ←
     (if bool_decide (order_columns ocs ≠ []) then
        s ← sort_row_list_by_columns (AsList fetched) (order_columns ocs)
               (order_desc_columns ocs);
        mret (slice_to (items s) limit)
      else islice fetched limit);
   mret ((λ row, drop (length ocs) row) <$> sorted_rows)).
Proof.
  intros Hwf. unfold fetch_aggregate.
  by rewrite order_parse, bool_decide_eq_true_2.
Qed.

(** X11. For any well-formed, non-empty order specification and rows that
    have its leading columns, [fetch_aggregate] sorts the rows stably and
    lexicographically on the leading columns (entry [i] on position [i],
    descending iff its column is among those marked ["desc"]), cuts the
    sorted list with [[:limit]] and strips the leading columns. *)
Theorem fetch_aggregate_sorts_slices_strips
    {value : Type} `{PyLt value} `{!PyLtLaws value}
    (fetched : list (row value)) (order_by_columns : list order_clause)
    (limit : Z) :
  order_by_columns ≠ [] →
  Forall (λ oc, is_Some (entry_view oc)) order_by_columns →
  Forall (λ r, (length order_by_columns ≤ length r)%nat) fetched →
  let dirs := declared_desc (order_columns order_by_columns)
                (order_desc_columns order_by_columns) in
  ∃ sorted,
    sorted ≡ₚ fetched ∧
    non_decreasing dirs sorted ∧
    (∀ r, r ∈ fetched →
       filter (λ x, tied dirs r x) sorted = filter (λ x, tied dirs r x) fetched) ∧
    fetch_aggregate fetched order_by_columns limit
    = Return ((λ row, drop (length order_by_columns) row)
                <$> slice_to sorted limit).
Proof.
  intros Hne Hwf Hcols dirs.
  pose proof (order_columns_length _ Hwf) as Hlen.
  destruct (sort_passes_returns (order_desc_columns order_by_columns)
              (AsList fetched) (order_columns order_by_columns) 0)
    as [s Hs]; [by rewrite Hlen|].
  pose proof Hs as (_ & Hperm & Hsorted & Hstable)%sort_passes_spec.
  exists (items s). split_and!; [done..|].
  rewrite fetch_aggregate_unfold by done.
  rewrite bool_decide_eq_true_2.
  - unfold sort_row_list_by_columns, enumerate. by rewrite Hs.
  - intros Hnil. rewrite Hnil in Hlen. by destruct order_by_columns.
Qed.

Lemma fetch_aggregate_sorts_slices_strips_witness :
  ∃ sorted,
    non_decreasing [false; true] sorted ∧
    fetch_aggregate [[1; 2; 10]; [2; 2; 20]; [1; 3; 30]]
      [Bare "a"; Seq ["b"; "Desc"]] 2
    = Return ((λ row, drop 2 row) <$> slice_to sorted 2).
Proof.
  destruct (fetch_aggregate_sorts_slices_strips (value := Z)
              [[1; 2; 10]; [2; 2; 20]; [1; 3; 30]]
              [Bare "a"; Seq ["b"; "Desc"]] 2)
    as (sorted & _ & Hsorted & _ & Hfetch).
  - discriminate.
  - repeat constructor; by eexists.
  - repeat constructor.
  - exists sorted. split; [exact Hsorted | exact Hfetch].
Defined.

(** X12. Directions go by column name, not by entry: when the first loop
    of [fetch_aggregate] ends, a column is in [desc_columns], and so is
    sorted in reverse at every position it is named for, exactly when some
    entry marks it ["desc"] (in any case). *)
Theorem fetch_aggregate_desc_by_name
    (order_by_columns : list order_clause)
    (sort_columns desc_columns : list string) :
  foldl order_step (Return ([], [])) order_by_columns
    = Return (sort_columns, desc_columns) →
  sort_columns = order_columns order_by_columns ∧
  ∀ column,
    column ∈ desc_columns ↔
    ∃ direction more,
      Seq (column :: direction :: more) ∈ order_by_columns ∧
      ascii_lower direction = "desc".
Proof.
  rewrite order_parse. destruct (bool_decide _); [|done].
  intros [= <- <-]. split; [done|]. intros column.
  unfold order_desc_columns. rewrite list_elem_of_omap. split.
  - intros (oc & Hin & Hoc).
    destruct oc as [c|[|c [|d t]]]; simpl in Hoc; try done.
    destruct (bool_decide _) eqn:Hd; simpl in Hoc; [|done].
    injection Hoc as ->. apply bool_decide_eq_true in Hd. eauto.
  - intros (d & t & Hin & Hd). eexists. split; [exact Hin|].
    simpl. by rewrite bool_decide_eq_true_2.
Qed.

Lemma fetch_aggregate_desc_by_name_witness :
  "a" ∈ ["a"] ∧
  declared_desc ["a"; "a"] ["a"] = [true; true].
Proof.
  destruct (fetch_aggregate_desc_by_name [Seq ["a"; "desc"]; Bare "a"]
              ["a"; "a"] ["a"]) as [_ Hdesc]; [reflexivity|].
  split; [|reflexivity].
  apply Hdesc. exists "desc", []. split; [left|reflexivity].
Defined.

(** X13. A negative limit is treated in two ways. Without sort columns
    [fetch_aggregate] raises [ValueError]. With a well-formed, non-empty
    order specification and rows that have its leading columns, it returns
    the stably sorted rows without the last [-limit] of them (none, if
    there are no more than that), each stripped of the leading columns. *)
Theorem fetch_aggregate_negative_limit
    {value : Type} `{PyLt value} `{!PyLtLaws value}
    (fetched : list (row value)) (order_by_columns : list order_clause)
    (limit : Z) :
  limit < 0 →
  fetch_aggregate fetched [] limit = Raise ValueError ∧
  (order_by_columns ≠ [] →
   Forall (λ oc, is_Some (entry_view oc)) order_by_columns →
   Forall (λ r, (length order_by_columns ≤ length r)%nat) fetched →
   let dirs := declared_desc (order_columns order_by_columns)
                 (order_desc_columns order_by_columns) in
   ∃ sorted,
     sorted ≡ₚ fetched ∧
     non_decreasing dirs sorted ∧
     (∀ r, r ∈ fetched →
        filter (λ x, tied dirs r x) sorted = filter (λ x, tied dirs r x) fetched) ∧
     fetch_aggregate fetched order_by_columns limit
     = Return ((λ row, drop (length order_by_columns) row)
                 <$> take (length fetched - Z.to_nat (- limit)) sorted)).
Proof.
  intros Hlimit. split.
  - unfold fetch_aggregate, islice. simpl.
    by rewrite (proj2 (Z.leb_gt 0 limit)) by done.
  - intros Hne Hwf Hcols dirs.
    pose proof (order_columns_length _ Hwf) as Hlen.
    destruct (sort_passes_returns (order_desc_columns order_by_columns)
                (AsList fetched) (order_columns order_by_columns) 0)
      as [s Hs]; [by rewrite Hlen|].
    pose proof Hs as (_ & Hperm & Hsorted & Hstable)%sort_passes_spec.
    exists (items s). split_and!; [done..|].
    rewrite fetch_aggregate_unfold by done.
    rewrite bool_decide_eq_true_2
      by (intros Hnil; rewrite Hnil in Hlen; by destruct order_by_columns).
    unfold sort_row_list_by_columns, enumerate. rewrite Hs. simpl.
    unfold slice_to. rewrite (proj2 (Z.leb_gt 0 limit)) by done.
    apply Permutation_length in Hperm. simpl in Hperm. by rewrite Hperm.
Qed.

Lemma fetch_aggregate_negative_limit_witness :
  fetch_aggregate (value := Z) [[1; 10]; [2; 20]; [3; 30]] [] (-1)
  = Raise ValueError ∧
  ∃ sorted,
    non_decreasing [true] sorted ∧
    fetch_aggregate (value := Z) [[1; 10]; [2; 20]; [3; 30]]
      [Seq ["a"; "desc"]] (-1)
    = Return ((λ row, drop 1 row) <$> take 2 sorted).
Proof.
  destruct (fetch_aggregate_negative_limit (value := Z)
              [[1; 10]; [2; 20]; [3; 30]] [Seq ["a"; "desc"]] (-1))
    as [Hnone Hsome]; [lia|].
  split; [exact Hnone|].
  destruct Hsome as (sorted & _ & Hsorted & _ & Hfetch).
  - discriminate.
  - repeat constructor; by eexists.
  - repeat constructor.
  - exists sorted. split; [exact Hsorted | exact Hfetch].
Defined.

(** X14. With a limit [>= 0], whatever [fetch_aggregate] returns has
    [min(limit, number of fetched rows)] rows, and each of them is a
    fetched row without its first [len(order_by_columns)] columns, no
    fetched row being used twice. *)
Theorem fetch_aggregate_size_and_payload
    {value : Type} `{PyLt value}
    (fetched : list (row value)) (order_by_columns : list order_clause)
    (limit : Z) (out : list (row value)) :
  0 ≤ limit →
  fetch_aggregate fetched order_by_columns limit = Return out →
  length out = (Z.to_nat limit `min` length fetched)%nat ∧
  out ⊆+ (λ row, drop (length order_by_columns) row) <$> fetched.
Proof.
  intros Hlimit.
  destruct (decide (Forall (λ oc, is_Some (entry_view oc)) order_by_columns))
    as [Hwf|Hwf].
  - rewrite fetch_aggregate_unfold by done.
    destruct (bool_decide _).
    + unfold sort_row_list_by_columns, enumerate.
      destruct (foldl _ _ _) as [s|e] eqn:Hs; [|done].
      apply sort_passes_perm in Hs. simpl in Hs.
      intros [= <-]. rewrite length_fmap, slice_to_nonneg by done. split.
      * rewrite length_take. apply Permutation_length in Hs.
        unfold row in *. lia.
      * rewrite <-Hs. apply fmap_submseteq, submseteq_take.
    + unfold islice. destruct (_ && _); [|done].
      intros [= <-]. rewrite length_fmap. split.
      * apply length_take.
      * apply fmap_submseteq, submseteq_take.
  - unfold fetch_aggregate. by rewrite order_parse, bool_decide_eq_false_2.
Qed.

Lemma fetch_aggregate_size_and_payload_witness :
  length [[30]; [20]] = (2 `min` 3)%nat.
Proof.
  apply (fetch_aggregate_size_and_payload (value := Z)
           [[1; 10]; [2; 20]; [3; 30]] [Seq ["a"; "desc"]] 2 [[30]; [20]]).
  - lia.
  - reflexivity.
Defined.

(** X15. With a well-formed, non-empty order specification, a fetched row
    with fewer columns than there are entries makes [fetch_aggregate]
    raise [IndexError]: nothing is returned for the other rows either. *)
Theorem fetch_aggregate_short_row_raises
    {value : Type} `{PyLt value}
    (fetched : list (row value)) (order_by_columns : list order_clause)
    (limit : Z) (r : row value) :
  order_by_columns ≠ [] →
  Forall (λ oc, is_Some (entry_view oc)) order_by_columns →
  r ∈ fetched →
  (length r < length order_by_columns)%nat →
  fetch_aggregate fetched order_by_columns limit = Raise IndexError.
Proof.
  intros Hne Hwf Hr Hshort.
  pose proof (order_columns_length _ Hwf) as Hlen.
  rewrite fetch_aggregate_unfold by done.
  rewrite bool_decide_eq_true_2
    by (intros Hnil; rewrite Hnil in Hlen; by destruct order_by_columns).
  unfold sort_row_list_by_columns, enumerate.
  rewrite sort_passes_short; [done| |].
  - intros Hnil. rewrite Hnil in Hlen. by destruct order_by_columns.
  - apply Exists_exists. exists r. split; [done|]. simpl. lia.
Qed.

Lemma fetch_aggregate_short_row_raises_witness :
  fetch_aggregate [[1; 2; 10]; [5]] [Bare "a"; Bare "b"] 10 = Raise IndexError.
Proof.
  apply (fetch_aggregate_short_row_raises (value := Z) [[1; 2; 10]; [5]]
           [Bare "a"; Bare "b"] 10 [5]).
  - discriminate.
  - repeat constructor; by eexists.
  - right. left.
  - simpl. lia.
Defined.

(** ** [fetch_aggregate_function] *)

Lemma drain_first_columns {value : Type} (fetched : list (row value)) :
  drain ((λ row, getitem row 0) <$> fetched) =
  mapM (λ row, getitem row 0) fetched.
Proof.
  unfold drain, id. induction fetched as [|r l IH]; [done|].
  cbn [fmap list_fmap mapM].
  destruct (getitem r 0); [|done]. simpl. by rewrite IH.
Qed.

(** X16. A function that reads the whole generator (as [sum], [min],
    [max] or [list] do) is given the first column of every fetched row, in
    order; if some fetched row is empty, the reading raises [IndexError]
    and the function produces nothing. *)
Theorem fetch_aggregate_function_first_columns
    {value R : Type} (f : list value → outcome R)
    (fetched : list (row value)) :
  let func := λ generator, xs ← drain generator; f xs in
  (∀ firsts, Forall2 (λ r x, r !! 0%nat = Some x) fetched firsts →
     fetch_aggregate_function func fetched = f firsts) ∧
  ([] ∈ fetched →
     fetch_aggregate_function func fetched = Raise IndexError).
Proof.
  unfold fetch_aggregate_function. simpl. rewrite drain_first_columns. split.
  - intros firsts Hfirsts.
    match goal with
    | |- context [mapM ?g fetched] =>
        assert (mapM g fetched = Return firsts) as ->; [|done]
    end.
    apply mapM_Return. eapply Forall2_impl; [exact Hfirsts|].
    intros r x Hx. destruct r; cbv in Hx |- *; congruence.
  - intros Hempty.
    destruct (mapM _ fetched) as [firsts|e] eqn:Hm.
    + apply mapM_Return in Hm.
      apply list_elem_of_lookup in Hempty as [i Hi].
      destruct (Forall2_lookup_l _ _ _ _ _ Hm Hi) as (x & _ & Hx).
      discriminate Hx.
    + apply mapM_Raise, Exists_exists in Hm as (r & _ & Hr).
      destruct r; cbv in Hr; [by injection Hr as <-|discriminate].
Qed.

Lemma fetch_aggregate_function_first_columns_witness :
  fetch_aggregate_function (λ generator, xs ← drain generator; Return (length xs))
    [[1; 10]; [2; 20]] = Return 2%nat ∧
  fetch_aggregate_function (λ generator, xs ← drain generator; Return (length xs))
    [[1; 10]; []] = Raise IndexError.
Proof.
  destruct (fetch_aggregate_function_first_columns (value := Z)
              (λ xs, Return (length xs)) [[1; 10]; [2; 20]]) as [Hall _].
  destruct (fetch_aggregate_function_first_columns (value := Z)
              (λ xs, Return (length xs)) [[1; 10]; []]) as [_ Hempty].
  split.
  - apply (Hall [1; 2]). repeat constructor.
  - apply Hempty. right. left.
Defined.

(** ** [VTGateCursor.nextset] *)

(** What one call of [nextset] does, by whether a result set follows the
    current position. *)
Lemma nextset_run {value : Type} (w : world (VTGateCursor.t value)) :
  let next := match VTGateCursor.result_set_index (self w) with
              | None => 0%nat
              | Some i => (i + 1)%nat
              end in
  let run := VTGateCursor.nextset w in
  calls run.2 = calls w ∧ handled run.2 = handled w ∧
  match VTGateCursor.result_sets (self w) !! next with
  | Some rs =>
      run.1 = Return (Some true) ∧
      current_result_set (self run.2) = rs ∧
      VTGateCursor.result_sets (self run.2) = VTGateCursor.result_sets (self w) ∧
      VTGateCursor.result_set_index (self run.2) = Some next
  | None =>
      run.1 = Return None ∧
      VTGateCursor.result_sets (self run.2) = [] ∧
      VTGateCursor.result_set_index (self run.2) = None
  end.
Proof.
  destruct w as [c cs hs]. destruct c as [? ? ? ? ? ? ? ? ? ? ? ? ? rss idx].
  cbn [self VTGateCursor.result_sets VTGateCursor.result_set_index].
  unfold VTGateCursor.nextset, getitem.
  destruct idx as [i|].
  - destruct (rss !! (i + 1)%nat) as [rs|] eqn:Hrs.
    + pose proof (lookup_lt_Some _ _ _ Hrs) as Hlt.
      run_method. rewrite bool_decide_eq_true_2 by done.
      simpl in Hrs. rewrite Hrs. by destruct rs as [[[? ?] ?] ?].
    + apply lookup_ge_None in Hrs. run_method.
      by rewrite bool_decide_eq_false_2 by lia.
  - destruct (rss !! 0%nat) as [rs|] eqn:Hrs.
    + pose proof (lookup_lt_Some _ _ _ Hrs) as Hlt.
      run_method. rewrite bool_decide_eq_true_2 by done.
      simpl in Hrs. rewrite Hrs. by destruct rs as [[[? ?] ?] ?].
    + apply lookup_ge_None in Hrs. run_method.
      by rewrite bool_decide_eq_false_2 by lia.
Qed.

(** X17. [nextset] never raises and reaches neither the connection nor the
    transaction handler. It reports [True] exactly when a result set
    follows the current position (the first one when the index is unset),
    and then the current results, row count, last row id and description
    are that result set; otherwise it reports [None] and the batch state
    is cleared. *)
Theorem nextset_outcome {value : Type} (w : world (VTGateCursor.t value)) :
  let next := match VTGateCursor.result_set_index (self w) with
              | None => 0%nat
              | Some i => (i + 1)%nat
              end in
  let run := VTGateCursor.nextset w in
  calls run.2 = calls w ∧ handled run.2 = handled w ∧
  run.1 = Return
            (if bool_decide (next < length (VTGateCursor.result_sets (self w)))%nat
             then Some true else None) ∧
  (run.1 = Return (Some true) →
   VTGateCursor.result_sets (self w) !! next
     = Some (current_result_set (self run.2)) ∧
   VTGateCursor.result_set_index (self run.2) = Some next) ∧
  (run.1 = Return None →
   VTGateCursor.result_sets (self run.2) = [] ∧
   VTGateCursor.result_set_index (self run.2) = None).
Proof.
  intros next run. pose proof (nextset_run w) as Hrun. simpl in Hrun.
  fold next run in Hrun. destruct Hrun as (Hcalls & Hhandled & Hrun).
  split_and!; [done|done|..].
  - destruct (VTGateCursor.result_sets (self w) !! next) as [rs|] eqn:Hrs.
    + destruct Hrun as (-> & _).
      by rewrite bool_decide_eq_true_2 by by eapply lookup_lt_Some.
    + destruct Hrun as (-> & _). apply lookup_ge_None in Hrs.
      by rewrite bool_decide_eq_false_2 by lia.
  - intros Htrue.
    destruct (VTGateCursor.result_sets (self w) !! next) as [rs|] eqn:Hrs.
    + by destruct Hrun as (_ & -> & _ & ->).
    + destruct Hrun as (Hnone & _). congruence.
  - intros Hnone.
    destruct (VTGateCursor.result_sets (self w) !! next) as [rs|] eqn:Hrs.
    + destruct Hrun as (Htrue & _). congruence.
    + by destruct Hrun as (_ & -> & ->).
Qed.

(** X18. Without result sets [nextset] stays exhausted: any number of
    calls report [None] each time and leave the batch state clear, without
    a call to the connection. *)
Theorem nextset_exhausted_stays
    {value : Type} (w : world (VTGateCursor.t value)) (k : nat) :
  VTGateCursor.result_sets (self w) = [] →
  let run := VTGateCursor.nextset_times k w in
  run.1 = Return (replicate k None) ∧
  VTGateCursor.result_sets (self run.2) = [] ∧
  calls run.2 = calls w.
Proof.
  revert w. induction k as [|k IH]; intros w Hnone; [done|].
  destruct (nextset_exhausted w) as (Hr & Hsets & _ & Hcalls).
  { by rewrite Hnone. }
  destruct (IH (VTGateCursor.nextset w).2 Hsets) as (Hr' & Hsets' & Hcalls').
  cbn [VTGateCursor.nextset_times]. unfold mbind, M_bind, mret, M_ret.
  destruct (VTGateCursor.nextset w) as [r w1]. simpl in *. subst r.
  destruct (VTGateCursor.nextset_times k w1) as [r' w2]. simpl in *. subst r'.
  simpl. split_and!; [done|done|congruence].
Qed.

Lemma nextset_exhausted_stays_witness :
  (VTGateCursor.nextset_times 3 (sample_world false)).1
  = Return [None; None; None].
Proof.
  by destruct (nextset_exhausted_stays (sample_world false) 3 eq_refl)
    as (Hr & _).
Defined.

(** ** [VTGateCursor.executemany] *)

Lemma nextset_times_positions {value : Type} k :
  ∀ (w : world (VTGateCursor.t value)) i rs,
  VTGateCursor.result_set_index (self w) = Some i →
  VTGateCursor.result_sets (self w) !! i = Some (current_result_set (self w)) →
  VTGateCursor.result_sets (self w) !! (i + k)%nat = Some rs →
  let run := VTGateCursor.nextset_times k w in
  run.1 = Return (replicate k (Some true)) ∧
  current_result_set (self run.2) = rs ∧
  calls run.2 = calls w.
Proof.
  induction k as [|k IH]; intros w i rs Hi Hcur Hrs.
  - rewrite Nat.add_0_r in Hrs. simpl. split_and!; [done| |done]. congruence.
  - destruct (lookup_lt_is_Some_2 (VTGateCursor.result_sets (self w)) (i + 1)%nat)
      as [rs1 Hrs1]; [apply lookup_lt_Some in Hrs; lia|].
    pose proof (nextset_run w) as Hout. simpl in Hout.
    rewrite Hi, Hrs1 in Hout.
    destruct Hout as (Hcalls & _ & Hr & Hcur1 & Hsets & Hidx).
    destruct (IH (VTGateCursor.nextset w).2 (i + 1)%nat rs Hidx)
      as (Hr' & Hcur' & Hcalls').
    { by rewrite Hsets, Hcur1. }
    { rewrite Hsets. by replace (i + 1 + k)%nat with (i + S k)%nat by lia. }
    cbn [VTGateCursor.nextset_times]. unfold mbind, M_bind, mret, M_ret.
    destruct (VTGateCursor.nextset w) as [r w1]. simpl in *. subst r.
    destruct (VTGateCursor.nextset_times k w1) as [r' w2]. simpl in *. subst r'.
    simpl. split_and!; [done|done|congruence].
Qed.

Lemma executemany_positions {value : Type} (connection : connection value)
    (sql : option string) (params_list : list (gmap string pyobj))
    (w : world (VTGateCursor.t value)) :
  let run := VTGateCursor.executemany connection sql params_list w in
  run.1 = Return () →
  ∃ c rss,
    calls run.2 = (calls w ++ [c])%list ∧
    _execute_batch connection (calls w) c = Return rss ∧
    VTGateCursor.result_sets (self run.2) = rss ∧
    match rss with
    | [] => VTGateCursor.result_set_index (self run.2) = None
    | rs :: _ =>
        VTGateCursor.result_set_index (self run.2) = Some 0%nat ∧
        current_result_set (self run.2) = rs
    end.
Proof.
  destruct w as [c cs hs]. destruct c.
  unfold VTGateCursor.executemany. run_method.
  repeat match goal with
  | |- context [match ?o with Return _ => _ | Raise _ => _ end] =>
      destruct o as [?|?] eqn:?; simpl; [|done]
  end.
  match goal with
  | |- context [VTGateCursor.nextset ?w0] =>
      pose proof (nextset_run w0) as Hout;
      destruct (VTGateCursor.nextset w0) as [r w1]
  end.
  simpl in Hout.
  match goal with
  | H : _execute_batch _ _ ?c0 = Return ?rss |- _ =>
      exists c0, rss; destruct rss as [|rs rss]
  end.
  - destruct Hout as (Hcalls & _ & -> & Hsets & Hidx). simpl. eauto.
  - destruct Hout as (Hcalls & _ & -> & Hcur & Hsets & Hidx). simpl. eauto 10.
Qed.

(** X19. After [executemany] returns, the cursor stands on the first
    result set the connection answered with, and [j] calls of [nextset]
    bring it to the [j]-th one after it: every result set is visited once,
    in the order of the answer, however many statements were sent. *)
Theorem executemany_visits_in_order
    {value : Type} (connection : connection value)
    (sql : option string) (params_list : list (gmap string pyobj))
    (w : world (VTGateCursor.t value))
    (c : call) (rss : list (result_set value)) (j : nat) (rs : result_set value) :
  let run := VTGateCursor.executemany connection sql params_list w in
  run.1 = Return () →
  calls run.2 = (calls w ++ [c])%list →
  _execute_batch connection (calls w) c = Return rss →
  rss !! j = Some rs →
  let advances := VTGateCursor.nextset_times j run.2 in
  advances.1 = Return (replicate j (Some true)) ∧
  current_result_set (self advances.2) = rs.
Proof.
  intros run Hret Hcalls Hbatch Hj.
  destruct (executemany_positions connection sql params_list w Hret)
    as (c' & rss' & Hcalls' & Hbatch' & Hsets & Hpos).
  fold run in Hcalls', Hsets, Hpos.
  rewrite Hcalls in Hcalls'. apply app_inj_tail in Hcalls' as [_ <-].
  rewrite Hbatch in Hbatch'. injection Hbatch' as <-.
  destruct rss as [|rs0 rss]; [done|]. destruct Hpos as [Hidx Hcur].
  destruct (nextset_times_positions j run.2 0 rs Hidx) as (? & ? & _);
    [by rewrite Hsets, Hcur|by rewrite Hsets|done].
Qed.

Lemma executemany_visits_in_order_witness :
  let run := VTGateCursor.executemany sample_connection (Some "select 1")
               [sample_params; sample_params] (sample_world false) in
  current_result_set (self (VTGateCursor.nextset_times 1 run.2).2)
  = sample_result_set.
Proof.
  destruct (executemany_visits_in_order sample_connection (Some "select 1")
              [sample_params; sample_params] (sample_world false)
              (Call_execute_batch
                 [PyStr "select 1"; PyStr "select 1"]
                 [PyObject "{}"; PyObject "{}"]
                 [PyStr "ks"; PyStr "ks"]
                 [PyObject "[]"; PyObject "[]"]
                 (PyStr "replica") false PyNone)
              [sample_result_set; sample_result_set] 1 sample_result_set)
    as [_ Hcur].
  - vm_compute. reflexivity.
  - vm_compute. reflexivity.
  - reflexivity.
  - reflexivity.
  - exact Hcur.
Defined.

Lemma mapM_dict_Return (key : string) (l : list (gmap string pyobj)) vs :
  mapM (λ params, dict_getitem params key) l = Return vs →
  Forall2 (λ params v, params !! key = Some v) l vs.
Proof.
  intros Hm%mapM_Return. eapply Forall2_impl; [exact Hm|].
  intros params v. unfold dict_getitem. simpl.
  destruct (params !! key); congruence.
Qed.

Lemma mapM_dict_Raise (key : string) (l : list (gmap string pyobj)) e :
  mapM (λ params, dict_getitem params key) l = Raise e → e = KeyError key.
Proof.
  intros (params & _ & Hp)%mapM_Raise%Exists_exists.
  unfold dict_getitem in Hp. destruct (params !! key); congruence.
Qed.

Lemma executemany_sql_list_Raise (sql : option string)
    (l : list (gmap string pyobj)) e :
  match sql with
  | Some s =>
      if bool_decide (s ≠ "")
      then Return (replicate (length l) (PyStr s))
      else mapM (λ params, dict_getitem params "sql") l
  | None => mapM (λ params, dict_getitem params "sql") l
  end = Raise e →
  e = KeyError "sql".
Proof.
  destruct sql as [s|]; [destruct (bool_decide _); [done|]|];
    apply mapM_dict_Raise.
Qed.

(** X20. If some element of [params_list] lacks one of the keys
    ['bind_variables'], ['keyspace'], ['keyspace_ids'], [executemany]
    raises [KeyError] before anything else happened: the cursor, batch
    state included, is as before and the connection was not called. *)
Theorem executemany_missing_key
    {value : Type} (connection : connection value)
    (sql : option string) (params_list : list (gmap string pyobj))
    (w : world (VTGateCursor.t value))
    (params : gmap string pyobj) (key : string) :
  params ∈ params_list →
  key ∈ ["bind_variables"; "keyspace"; "keyspace_ids"] →
  params !! key = None →
  ∃ k, VTGateCursor.executemany connection sql params_list w
       = (Raise (KeyError k), w).
Proof.
  intros Hin Hkey Hmiss.
  assert (∀ vs, ¬ Forall2 (λ p v, p !! key = Some v) params_list vs) as Hno.
  { intros vs Hall. apply list_elem_of_lookup in Hin as [i Hi].
    destruct (Forall2_lookup_l _ _ _ _ _ Hall Hi) as (v & _ & Hv). congruence. }
  destruct w as [c cs hs]. destruct c.
  unfold VTGateCursor.executemany. run_method.
  destruct (match sql with Some _ => _ | None => _ end) as [sql_list|e] eqn:Hsql;
    simpl; [|apply executemany_sql_list_Raise in Hsql as ->; by eexists].
  destruct (mapM _ params_list) as [bvs|e] eqn:Hb in |- *;
    simpl; [|apply mapM_dict_Raise in Hb as ->; by eexists].
  destruct (mapM _ params_list) as [ks|e] eqn:Hk in |- *;
    simpl; [|apply mapM_dict_Raise in Hk as ->; by eexists].
  destruct (mapM _ params_list) as [kis|e] eqn:Hi in |- *;
    simpl; [|apply mapM_dict_Raise in Hi as ->; by eexists].
  exfalso. apply mapM_dict_Return in Hb, Hk, Hi.
  rewrite !elem_of_cons, elem_of_nil in Hkey.
  destruct Hkey as [->|[->|[->|[]]]]; by eapply Hno.
Qed.

Lemma executemany_missing_key_witness :
  ∃ k, VTGateCursor.executemany sample_connection (Some "select 1")
         [sample_params; delete "keyspace" sample_params] (sample_world true)
       = (Raise (KeyError k), sample_world true).
Proof.
  apply (executemany_missing_key sample_connection (Some "select 1")
           [sample_params; delete "keyspace" sample_params] (sample_world true)
           (delete "keyspace" sample_params) "keyspace").
  - right. left.
  - right. left.
  - apply lookup_delete_eq.
Defined.

Lemma calls_not_extended (cs : list call) (c : call) : cs ≠ (cs ++ [c])%list.
Proof.
  intros Heq. apply (f_equal length) in Heq.
  rewrite length_app in Heq. simpl in Heq. lia.
Qed.

(** X21. When the batch primitive raises, [executemany] raises the same
    exception; the batch state has been cleared by then, while the current
    results, row count, last row id and description are still those from
    before the call. *)
Theorem executemany_upstream_error
    {value : Type} (connection : connection value)
    (sql : option string) (params_list : list (gmap string pyobj))
    (w : world (VTGateCursor.t value)) (c : call) (e : exn) :
  let run := VTGateCursor.executemany connection sql params_list w in
  calls run.2 = (calls w ++ [c])%list →
  _execute_batch connection (calls w) c = Raise e →
  run.1 = Raise e ∧
  VTGateCursor.result_sets (self run.2) = [] ∧
  VTGateCursor.result_set_index (self run.2) = None ∧
  current_result_set (self run.2) = current_result_set (self w).
Proof.
  destruct w as [cur cs hs]. destruct cur.
  unfold VTGateCursor.executemany. run_method.
  repeat match goal with
  | |- context [match ?o with Return _ => _ | Raise _ => _ end] =>
      destruct o as [?|?] eqn:?; simpl;
      [|try (by intros ?%calls_not_extended)]
  end.
  - match goal with
    | |- context [VTGateCursor.nextset ?w0] =>
        pose proof (nextset_run w0) as (Hcalls & _);
        destruct (VTGateCursor.nextset w0) as [r [c1 cs1 hs1]]
    end.
    simpl in Hcalls. subst cs1. destruct r; simpl;
      intros [_ <-]%app_inj_tail; congruence.
  - intros [_ <-]%app_inj_tail. intros Hraise. split; [congruence|done].
Qed.

Lemma executemany_upstream_error_witness :
  let failing : connection Z :=
    {| _execute := _execute sample_connection;
       _execute_entity_ids := _execute_entity_ids sample_connection;
       _execute_batch := λ _ _, Raise (UpstreamError "deadline exceeded");
       _stream_execute := _stream_execute sample_connection |} in
  (VTGateCursor.executemany failing (Some "select 1") [sample_params]
     (sample_world false)).1
  = Raise (UpstreamError "deadline exceeded").
Proof.
  intros failing.
  destruct (executemany_upstream_error failing (Some "select 1")
              [sample_params] (sample_world false)
              (Call_execute_batch [PyStr "select 1"] [PyObject "{}"]
                 [PyStr "ks"] [PyObject "[]"] (PyStr "replica") false PyNone)
              (UpstreamError "deadline exceeded")) as [Hraise _].
  - vm_compute. reflexivity.
  - reflexivity.
  - exact Hraise.
Defined.

(** X22. [executemany] calls the batch primitive at most once, and what it
    sends are parallel lists with one item per element of [params_list],
    in order: that element's ['bind_variables'], ['keyspace'] and
    ['keyspace_ids'], and for the statement the shared [sql] when it is
    given and not empty (the element's own ['sql'] is then ignored), else
    the element's ['sql']. *)
Theorem executemany_sends_parallel_lists
    {value : Type} (connection : connection value)
    (sql : option string) (params_list : list (gmap string pyobj))
    (w : world (VTGateCursor.t value)) :
  let run := VTGateCursor.executemany connection sql params_list w in
  calls run.2 = calls w ∨
  ∃ sql_list bind_variables_list keyspace_list keyspace_ids_list,
    calls run.2 =
      (calls w ++
       [Call_execute_batch sql_list bind_variables_list keyspace_list
          keyspace_ids_list (VTGateCursor.tablet_type (self w))
          (VTGateCursor.as_transaction (self w))
          (VTGateCursor.effective_caller_id (self w))])%list ∧
    Forall2 (λ params v, params !! "bind_variables" = Some v)
      params_list bind_variables_list ∧
    Forall2 (λ params v, params !! "keyspace" = Some v)
      params_list keyspace_list ∧
    Forall2 (λ params v, params !! "keyspace_ids" = Some v)
      params_list keyspace_ids_list ∧
    match sql with
    | Some s =>
        if bool_decide (s ≠ "")
        then sql_list = replicate (length params_list) (PyStr s)
        else Forall2 (λ params v, params !! "sql" = Some v) params_list sql_list
    | None => Forall2 (λ params v, params !! "sql" = Some v) params_list sql_list
    end.
Proof.
  destruct w as [cur cs hs]. destruct cur.
  unfold VTGateCursor.executemany. run_method.
  destruct (match sql with Some _ => _ | None => _ end) as [sql_list|e] eqn:Hsql;
    simpl; [|by left].
  destruct (mapM _ params_list) as [bvs|e] eqn:Hb in |- *; simpl; [|by left].
  destruct (mapM _ params_list) as [ks|e] eqn:Hk in |- *; simpl; [|by left].
  destruct (mapM _ params_list) as [kis|e] eqn:Hi in |- *; simpl; [|by left].
  apply mapM_dict_Return in Hb, Hk, Hi.
  right. exists sql_list, bvs, ks, kis. split_and!; try done.
  - destruct (_execute_batch _ _ _) as [rss|e]; simpl; [|done].
    match goal with
    | |- context [VTGateCursor.nextset ?w0] =>
        pose proof (nextset_run w0) as (Hcalls & _);
        destruct (VTGateCursor.nextset w0) as [r [c1 cs1 hs1]]
    end.
    simpl in Hcalls. subst cs1. by destruct r.
  - destruct sql as [s|]; [destruct (bool_decide _); [congruence|]|];
      by apply mapM_dict_Return.
Qed.

(** ** What the methods keep and what they pass on *)

Lemma nextset_keeps_construction {value : Type}
    (w : world (VTGateCursor.t value)) :
  constructed_with (self (VTGateCursor.nextset w).2) = constructed_with (self w).
Proof.
  destruct w as [c cs hs]. destruct c as [? ? ? ? ? ? ? ? ? ? ? ? ? rss idx].
  unfold VTGateCursor.nextset.
  destruct idx as [i|]; run_method; case_bool_decide; try done;
    unfold getitem; (destruct (rss !! _) as [[[[? ?] ?] ?]|]; by run_method).
Qed.

(** X23. No method changes what the cursor was constructed with:
    writability, keyspace, tablet type, keyspace ids, key ranges and the
    transaction flag are the same after [execute], [execute_entity_ids],
    [executemany], [nextset] and [close], whether they return or raise. *)
Theorem methods_keep_construction
    {value : Type} (connection : connection value)
    (sql : string) (batch_sql : option string)
    (bind_variables entity_keyspace_id_map entity_column_name : pyobj)
    (params_list : list (gmap string pyobj))
    (w : world (VTGateCursor.t value)) :
  constructed_with
    (self (VTGateCursor.execute connection sql bind_variables w).2)
    = constructed_with (self w) ∧
  constructed_with
    (self (VTGateCursor.execute_entity_ids connection sql bind_variables
             entity_keyspace_id_map entity_column_name w).2)
    = constructed_with (self w) ∧
  constructed_with
    (self (VTGateCursor.executemany connection batch_sql params_list w).2)
    = constructed_with (self w) ∧
  constructed_with (self (VTGateCursor.nextset w).2) = constructed_with (self w) ∧
  constructed_with (self (VTGateCursor.close w).2) = constructed_with (self w).
Proof.
  split_and!; [| | |apply nextset_keeps_construction|];
    destruct w as [c cs hs]; destruct c as [writable ? ? ? ? ? ? ? ? ? ? ? ? ? ?].
  - unfold VTGateCursor.execute.
    destruct (is_transaction_directive sql) eqn:Hd; run_method; rewrite Hd;
      [done|].
    destruct (write_sql_pattern_match sql), writable; run_method; try done;
      destruct (_execute _ _ _) as [[[[? ?] ?] ?]|e]; by run_method.
  - unfold VTGateCursor.execute_entity_ids.
    destruct (write_sql_pattern_match sql); run_method; try done;
      destruct (_execute_entity_ids _ _ _) as [[[[? ?] ?] ?]|e]; by run_method.
  - unfold VTGateCursor.executemany. run_method.
    repeat match goal with
    | |- context [match ?o with Return _ => _ | Raise _ => _ end] =>
        destruct o as [?|?]; simpl; [|done]
    end.
    match goal with
    | |- context [VTGateCursor.nextset ?w0] =>
        pose proof (nextset_keeps_construction w0) as Hkeep;
        destruct (VTGateCursor.nextset w0) as [r [c1 cs1 hs1]]
    end.
    simpl in Hkeep. by destruct r.
  - done.
Qed.

(** X24. A statement that is no transaction directive and that the cursor
    may run (not a write, or the cursor is writable) is sent to [_execute]
    once, with [not_in_transaction] the negation of the writability. If
    the connection answers, the answer becomes the current results, row
    count, last row id and description and the row count is returned; if
    it raises, [execute] raises the same exception. *)
Theorem execute_passes_on
    {value : Type} (connection : connection value)
    (sql : string) (bind_variables : pyobj)
    (w : world (VTGateCursor.t value)) :
  is_transaction_directive sql = false →
  (write_sql_pattern_match sql = true →
   VTGateCursor._writable (self w) = true) →
  let run := VTGateCursor.execute connection sql bind_variables w in
  let c := Call_execute sql bind_variables
             (VTGateCursor.keyspace (self w))
             (VTGateCursor.tablet_type (self w))
             (VTGateCursor.keyspace_ids (self w))
             (VTGateCursor.keyranges (self w))
             (negb (VTGateCursor._writable (self w)))
             (VTGateCursor.effective_caller_id (self w)) in
  calls run.2 = (calls w ++ [c])%list ∧
  handled run.2 = handled w ∧
  match _execute connection (calls w) c with
  | Return rs =>
      current_result_set (self run.2) = rs ∧ run.1 = Return rs.1.1.2
  | Raise e => run.1 = Raise e
  end.
Proof.
  intros Hd Hallowed. destruct w as [c cs hs].
  destruct c as [writable ? ? ? ? ? ? ? ? ? ? ? ? ? ?]. simpl in Hallowed.
  unfold VTGateCursor.execute. run_method. rewrite Hd.
  destruct (write_sql_pattern_match sql).
  - rewrite Hallowed by done. run_method.
    destruct (_execute _ _ _) as [[[[? ?] ?] ?]|e]; by run_method.
  - run_method.
    destruct (_execute _ _ _) as [[[[? ?] ?] ?]|e]; by run_method.
Qed.

Lemma execute_passes_on_witness :
  (VTGateCursor.execute sample_connection "update t set a = 1" PyNone
     (sample_world true)).1
  = Return (Some 2).
Proof.
  destruct (execute_passes_on sample_connection "update t set a = 1" PyNone
              (sample_world true)) as (_ & _ & Hanswer).
  - reflexivity.
  - reflexivity.
  - destruct Hanswer as [_ Hr]. exact Hr.
Defined.

(** X25. [execute_entity_ids] does not look for transaction directives:
    nothing is ever handed to the transaction handler. A statement that is
    not a write is sent to [_execute_entity_ids] once, with
    [not_in_transaction] the negation of the writability; the answer
    becomes the current result set and its row count is returned, and an
    exception of the connection is raised as it is. *)
Theorem execute_entity_ids_passes_on
    {value : Type} (connection : connection value) (sql : string)
    (bind_variables entity_keyspace_id_map entity_column_name : pyobj)
    (w : world (VTGateCursor.t value)) :
  let run := VTGateCursor.execute_entity_ids connection sql bind_variables
               entity_keyspace_id_map entity_column_name w in
  let c := Call_execute_entity_ids sql bind_variables
             (VTGateCursor.keyspace (self w))
             (VTGateCursor.tablet_type (self w))
             entity_keyspace_id_map entity_column_name
             (negb (VTGateCursor._writable (self w)))
             (VTGateCursor.effective_caller_id (self w)) in
  handled run.2 = handled w ∧
  (write_sql_pattern_match sql = false →
   calls run.2 = (calls w ++ [c])%list ∧
   match _execute_entity_ids connection (calls w) c with
   | Return rs =>
       current_result_set (self run.2) = rs ∧ run.1 = Return rs.1.1.2
   | Raise e => run.1 = Raise e
   end).
Proof.
  destruct w as [c cs hs]. destruct c as [writable ? ? ? ? ? ? ? ? ? ? ? ? ? ?].
  unfold VTGateCursor.execute_entity_ids.
  destruct (write_sql_pattern_match sql); run_method.
  - done.
  - destruct (_execute_entity_ids _ _ _) as [[[[? ?] ?] ?]|e]; by run_method.
Qed.

Lemma execute_entity_ids_passes_on_witness :
  calls (VTGateCursor.execute_entity_ids sample_connection "begin" PyNone
           PyNone PyNone (sample_world true)).2
  = [Call_execute_entity_ids "begin" PyNone (PyStr "ks") (PyStr "replica")
       PyNone PyNone false PyNone].
Proof.
  destruct (execute_entity_ids_passes_on sample_connection "begin" PyNone
              PyNone PyNone (sample_world true)) as [_ Hsent].
  by destruct Hsent as [-> _].
Defined.

(** ** [StreamVTGateCursor.execute] *)

(** X26. A streaming [execute] changes nothing of what the cursor was
    constructed with, never reaches the transaction handler, and raises
    whatever [_stream_execute] raises. *)
Theorem stream_execute_passes_on
    {value : Type} (connection : connection value)
    (sql : string) (bind_variables : pyobj)
    (w : world (StreamVTGateCursor.t value)) :
  let run := StreamVTGateCursor.execute connection sql bind_variables w in
  stream_constructed_with (self run.2) = stream_constructed_with (self w) ∧
  handled run.2 = handled w ∧
  (StreamVTGateCursor._writable (self w) = false →
   ∀ e,
     _stream_execute connection (calls w)
       (Call_stream_execute sql bind_variables
          (StreamVTGateCursor.keyspace (self w))
          (StreamVTGateCursor.tablet_type (self w))
          (StreamVTGateCursor.keyspace_ids (self w))
          (StreamVTGateCursor.keyranges (self w))
          true (StreamVTGateCursor.effective_caller_id (self w)))
     = Raise e →
     run.1 = Raise e).
Proof.
  destruct w as [c cs hs]. destruct c as [writable ? ? ? ? ? ? ? ?].
  unfold StreamVTGateCursor.execute. destruct writable; run_method.
  - split_and!; [done|done|]. by intros [=].
  - destruct (_stream_execute _ _ _) as [[g d]|e]; run_method;
      split_and!; try done; intros _ ? [=]; by subst.
Qed.

Lemma stream_execute_passes_on_witness :
  let failing : connection Z :=
    {| _execute := _execute sample_connection;
       _execute_entity_ids := _execute_entity_ids sample_connection;
       _execute_batch := _execute_batch sample_connection;
       _stream_execute := λ _ _, Raise (UpstreamError "deadline exceeded") |} in
  (StreamVTGateCursor.execute failing "select 1" PyNone
     (sample_stream_world false)).1
  = Raise (UpstreamError "deadline exceeded").
Proof.
  intros failing.
  destruct (stream_execute_passes_on failing "select 1" PyNone
              (sample_stream_world false)) as (_ & _ & Hraise).
  by apply Hraise.
Defined.

(** X27. Each [executemany] that returns overwrites the old result sets:
    whatever the batch state was before, [result_sets] is afterwards what
    the connection answered with, unless that was nothing, and the index
    is at the first result set. *)
Theorem executemany_overwrites
    {value : Type} (connection : connection value)
    (sql : option string) (params_list : list (gmap string pyobj))
    (w : world (VTGateCursor.t value))
    (c : call) (rss : list (result_set value)) :
  let run := VTGateCursor.executemany connection sql params_list w in
  run.1 = Return () →
  calls run.2 = (calls w ++ [c])%list →
  _execute_batch connection (calls w) c = Return rss →
  VTGateCursor.result_sets (self run.2) = rss ∧
  VTGateCursor.result_set_index (self run.2)
    = (if decide (rss = []) then None else Some 0%nat).
Proof.
  intros run Hret Hcalls Hbatch.
  destruct (executemany_returns connection sql params_list w Hret)
    as (c' & rss' & Hcalls' & Hbatch' & Hsets & Hidx).
  fold run in Hcalls', Hsets, Hidx.
  rewrite Hcalls in Hcalls'. apply app_inj_tail in Hcalls' as [_ <-].
  rewrite Hbatch in Hbatch'. injection Hbatch' as <-.
  split; [done|]. rewrite Hidx. by destruct rss.
Qed.

Lemma executemany_overwrites_witness :
  let w1 := (VTGateCursor.executemany sample_connection (Some "select 1")
               [sample_params; sample_params; sample_params]
               (sample_world false)).2 in
  let run := VTGateCursor.executemany sample_connection (Some "select 2")
               [sample_params] w1 in
  VTGateCursor.result_sets (self run.2) = [sample_result_set].
Proof.
  intros w1 run.
  destruct (executemany_overwrites sample_connection (Some "select 2")
              [sample_params] w1
              (Call_execute_batch [PyStr "select 2"] [PyObject "{}"]
                 [PyStr "ks"] [PyObject "[]"] (PyStr "replica") false PyNone)
              [sample_result_set]) as [Hsets _].
  - vm_compute. reflexivity.
  - vm_compute. reflexivity.
  - reflexivity.
  - exact Hsets.
Defined.
